(** * Viet Ky storefront: cart, catalog, query, pricing and persistence core

    A shallow embedding of the state and computation layer of [src/App.js]
    (the React component [App], the component [CheckoutFooter] and the
    helpers [save] and [load]), with the properties the design document
    states about them.

    Conventions of the embedding.
    - JavaScript numbers that the design document calls integers (prices,
      quantities, stock) are [Z]; ratings, which are decimal fractions in
      the default catalogue, are [Q].  Integer arithmetic on doubles is
      exact below 2^53 and no larger amount is modelled; [NaN] and the
      infinities are not values of the model.
    - JavaScript strings are [string]; the case mappings and the white space
      set are those of the code units below 128, other code units are
      neither white space nor changed by a case mapping.
    - A React state updater [setX (prev => e)] is the function
      [fun prev => e]; a sequence of calls is a left fold of updaters.
    - [uid()] draws from [Math.random]; the drawn identifier is an explicit
      argument of the operation that uses it. *)

From Stdlib Require Import ZArith QArith Qround String Ascii List Lia.
From Stdlib Require Import Sorting.Sorted Sorting.Permutation.
From Stdlib Require Import DecimalFacts DecimalN.
From stdpp Require Import base list strings gmap sorting.

Local Open Scope string_scope.
Local Open Scope list_scope.
Local Open Scope Z_scope.

(** ** Data model *)

Module Product.
(** A catalogue entry, as the objects of [DEFAULT_PRODUCTS] and the
    drafts of [AdminPanel].  [images] may be absent ([p.images?.]) and
    may hold [null] entries (the empty draft has [images: [null]]). *)
Record t := mk {
  id : string;
  name : string;
  price : Z;
  category : string;
  stock : Z;
  rating : Q;
  images : option (list (option string));
  description : string
}.

(** [{ ...p, id: i }] *)
Definition with_id (p : t) (i : string) : t :=
  mk i (name p) (price p) (category p) (stock p) (rating p) (images p)
     (description p).
End Product.

Module Item.
(** A cart line item, as built by [addToCart]. *)
Record t := mk {
  id : string;
  name : string;
  price : Z;
  qty : Z;
  image : option string
}.

(** [{ ...i, qty: q }] *)
Definition with_qty (i : t) (q : Z) : t :=
  mk (id i) (name i) (price i) q (image i).
End Item.

Abbreviation product := Product.t.
Abbreviation item := Item.t.

(** ** Cart store *)

(** [p.images?.[0] || null]: the first image reference, or [null] when the
    list is absent or empty, or when its first entry is [null] or the empty
    string (both falsy). *)
Definition first_image (p : product) : option string :=
  match Product.images p with
  | Some (Some s :: _) => if decide (s = EmptyString) then None else Some s
  | _ => None
  end.

(** The updater of [addToCart(p, qty = 1)]; an omitted quantity is [None]
    and takes the default 1. *)
Definition addToCart (p : product) (oqty : option Z) (prev : list item)
  : list item :=
  let qty := default 1 oqty in
  match list_find (λ i, Item.id i = Product.id p) prev with
  | Some _ =>
      map (λ i, if decide (Item.id i = Product.id p)
                then Item.with_qty i (Item.qty i + qty) else i) prev
  | None =>
      prev ++ [Item.mk (Product.id p) (Product.name p) (Product.price p) qty
                       (first_image p)]
  end.

(** The updater of [removeFromCart(id)]. *)
Definition removeFromCart (id : string) (prev : list item) : list item :=
  filter (λ i, Item.id i ≠ id) prev.

(** The updater of [updateQty(id, qty)]. *)
Definition updateQty (id : string) (qty : Z) (prev : list item) : list item :=
  map (λ i, if decide (Item.id i = id)
            then Item.with_qty i (Z.max 1 qty) else i) prev.

(** A call of [addToCart] and a sequence of calls applied in order. *)
Definition call : Type := product * option Z.

Definition run_adds (calls : list call) (cart : list item) : list item :=
  foldl (λ c k, addToCart k.1 k.2 c) cart calls.

(** The quantity a call contributes, and the total contributed to one
    product identifier by a sequence of calls. *)
Definition call_qty (k : call) : Z := default 1 k.2.

Definition added_qty (pid : string) (calls : list call) : Z :=
  foldr (λ k s, if decide (Product.id k.1 = pid) then call_qty k + s else s)
        0 calls.

(** The line items of a cart that carry a given identifier. *)
Definition lines_of (pid : string) (cart : list item) : list item :=
  filter (λ i, Item.id i = pid) cart.

(** ** Pricing engine *)

(** [cart.reduce((s, i) => s + i.price * i.qty, 0)] *)
Definition total (cart : list item) : Z :=
  foldl (λ s i, s + Item.price i * Item.qty i) 0 cart.

(** The sum over the line items of price times quantity, by recursion on
    the cart. *)
Fixpoint sum_lines (cart : list item) : Z :=
  match cart with
  | [] => 0
  | i :: rest => Item.price i * Item.qty i + sum_lines rest
  end.

(** [total > 500000 ? 0 : 30000] *)
Definition shippingFee (total : Z) : Z :=
  if 500000 <? total then 0 else 30000.

(** ** String primitives used by the coupon check and the search filter *)

Definition char_code (c : ascii) : N := N_of_ascii c.

Definition is_lower (c : ascii) : bool :=
  (97 <=? char_code c)%N && (char_code c <=? 122)%N.

Definition is_upper (c : ascii) : bool :=
  (65 <=? char_code c)%N && (char_code c <=? 90)%N.

Definition upper_char (c : ascii) : ascii :=
  if is_lower c then ascii_of_N (char_code c - 32) else c.

Definition lower_char (c : ascii) : ascii :=
  if is_upper c then ascii_of_N (char_code c + 32) else c.

(** [String.prototype.toUpperCase] and [toLowerCase]. *)
Fixpoint toUpperCase (s : string) : string :=
  match s with
  | EmptyString => EmptyString
  | String c r => String (upper_char c) (toUpperCase r)
  end.

Fixpoint toLowerCase (s : string) : string :=
  match s with
  | EmptyString => EmptyString
  | String c r => String (lower_char c) (toLowerCase r)
  end.

(** White space and line terminators: TAB, LF, VT, FF, CR and SPACE. *)
Definition is_space (c : ascii) : bool :=
  ((9 <=? char_code c)%N && (char_code c <=? 13)%N)
  || (char_code c =? 32)%N.

Fixpoint trimStart (s : string) : string :=
  match s with
  | EmptyString => EmptyString
  | String c r => if is_space c then trimStart r else s
  end.

Fixpoint trimEnd (s : string) : string :=
  match s with
  | EmptyString => EmptyString
  | String c r =>
      match trimEnd r with
      | EmptyString => if is_space c then EmptyString else String c EmptyString
      | r' => String c r'
      end
  end.

(** [String.prototype.trim] *)
Definition trim (s : string) : string := trimEnd (trimStart s).

(** [s.includes(sub)]: [sub] occurs in [s] as a contiguous substring. *)
Fixpoint includes (s sub : string) : bool :=
  String.prefix sub s ||
  match s with
  | EmptyString => false
  | String _ r => includes r sub
  end.

(** ** Pricing engine, continued: the checkout footer *)

(** [Math.round]: the nearest integer, a tie going up.  The footer applies
    it to [total * 0.1], taken here as the exact tenth; the double product
    rounds to the same integer for every total up to 10^15 in magnitude
    (its error stays below 1/10, and a tenth ending in .5 is exact). *)
Definition Math_round (q : Q) : Z := Qfloor (q + (1 # 2)).

Record footer := { discount : Z; grand : Z }.

(** The two amounts [CheckoutFooter({ total, shippingFee })] derives from
    its props and the coupon input. *)
Definition CheckoutFooter (total shippingFee : Z) (coupon : string) : footer :=
  let discount :=
    if decide (toUpperCase (trim coupon) = "VIETKY10")
    then Math_round (inject_Z total * (1 # 10))
    else 0 in
  let grand := Z.max 0 (total + shippingFee - discount) in
  {| discount := discount; grand := grand |}.

(** The footer as [App] renders it for a cart: [total] and [shippingFee]
    are the values computed by [App]. *)
Definition checkout (cart : list item) (coupon : string) : footer :=
  CheckoutFooter (total cart) (shippingFee (total cart)) coupon.

(** ** Query engine *)

(** [Array.prototype.sort(cmp)] for a comparator that is a consistent
    ordering: the stable sort.  [cmp a b > 0] places [a] after [b]. *)
Fixpoint sort_insert {A} (cmp : A → A → Q) (x : A) (l : list A) : list A :=
  match l with
  | [] => [x]
  | y :: r =>
      if Qle_bool (cmp x y) 0 then x :: y :: r else y :: sort_insert cmp x r
  end.

Definition js_sort {A} (cmp : A → A → Q) (l : list A) : list A :=
  foldr (sort_insert cmp) [] l.

Definition by_price_asc (a b : product) : Q :=
  inject_Z (Product.price a - Product.price b).

Definition by_price_desc (a b : product) : Q :=
  inject_Z (Product.price b - Product.price a).

Definition by_rating_desc (a b : product) : Q :=
  (Product.rating b - Product.rating a)%Q.

(** The search filter and the category filter of [filtered]. *)
Definition matches (products : list product) (query category : string)
  : list product :=
  let list := products in
  let list :=
    if decide (query = EmptyString) then list
    else filter (λ p, includes (toLowerCase (Product.name p))
                               (toLowerCase query) = true) list in
  let list :=
    if decide (category = "all") then list
    else filter (λ p, Product.category p = category) list in
  list.

(** The memoised value [filtered] of [App]. *)
Definition filtered (products : list product) (query category sort : string)
  : list product :=
  let list := matches products query category in
  let list :=
    if decide (sort = "priceAsc") then js_sort by_price_asc list else list in
  let list :=
    if decide (sort = "priceDesc") then js_sort by_price_desc list else list in
  let list :=
    if decide (sort = "popular") then js_sort by_rating_desc list else list in
  list.

#[local] Instance Qeq_decision (x y : Q) : Decision (x == y)%Q := Qeq_dec x y.

(** Descending by rating: every entry rates at least as high as each
    entry after it. *)
Definition rating_desc (l : list product) : Prop :=
  StronglySorted (λ a b, (Product.rating b <= Product.rating a)%Q) l.

(** ** Catalog store *)

(** The updater of [upsertProduct(p)]; [fresh] is the value of [uid()]. *)
Definition upsertProduct (p : product) (fresh : string) (list : list product)
  : Datatypes.list product :=
  match list_find (λ x, Product.id x = Product.id p) list with
  | Some (idx, _) => <[idx := p]> list
  | None => Product.with_id p fresh :: list
  end.

(** The updater of [deleteProduct(id)]. *)
Definition deleteProduct (id : string) (list : list product)
  : Datatypes.list product :=
  filter (λ p, Product.id p ≠ id) list.

(** ** Persistence adapter

    [save] and [load] are the code of the repository.  [JSON.stringify],
    [JSON.parse] and [localStorage] belong to the platform; they are
    modelled below as far as the properties of [save] and [load] need. *)

(** *** JSON values

    The values [JSON.stringify] and [JSON.parse] exchange.  Numbers are the
    integers; an object is the list of its own properties in enumeration
    order.  A JavaScript object has each key once: [json_wf] says so. *)
#[warnings="-register-all"]
Inductive json : Type :=
| JNull
| JBool (b : bool)
| JNum (n : Z)
| JStr (s : string)
| JArr (l : list json)
| JObj (l : list (string * json)).

Fixpoint distinct (keys : list string) : bool :=
  match keys with
  | [] => true
  | k :: rest => negb (bool_decide (k ∈ rest)) && distinct rest
  end.

Fixpoint json_wf (v : json) : bool :=
  match v with
  | JArr l => forallb json_wf l
  | JObj l => distinct (map fst l) && forallb (λ kv, json_wf (snd kv)) l
  | _ => true
  end.

(** *** [JSON.stringify], without indentation *)

Definition dquote : ascii := "034"%char.
Definition bslash : ascii := "\"%char.

Definition str1 (c : ascii) : string := String c EmptyString.

Definition hex_digit (n : N) : ascii :=
  default "0"%char (String.get (N.to_nat n) "0123456789abcdef").

(** QuoteJSONString, one code unit. *)
Definition quote_char (c : ascii) : string :=
  if (c =? dquote)%char then String bslash (str1 dquote)
  else if (c =? bslash)%char then String bslash (str1 bslash)
  else match char_code c with
       | 8%N => "\b"
       | 9%N => "\t"
       | 10%N => "\n"
       | 12%N => "\f"
       | 13%N => "\r"
       | n =>
           if (n <? 32)%N
           then "\u00"
                +:+ String (hex_digit (n / 16)%N) (str1 (hex_digit (n mod 16)%N))
           else str1 c
       end.

Fixpoint quote_body (s : string) : string :=
  match s with
  | EmptyString => str1 dquote
  | String c r => quote_char c +:+ quote_body r
  end.

Definition quote (s : string) : string := String dquote (quote_body s).

Fixpoint digits (u : Decimal.uint) : string :=
  match u with
  | Decimal.Nil => EmptyString
  | Decimal.D0 u => String "0" (digits u)
  | Decimal.D1 u => String "1" (digits u)
  | Decimal.D2 u => String "2" (digits u)
  | Decimal.D3 u => String "3" (digits u)
  | Decimal.D4 u => String "4" (digits u)
  | Decimal.D5 u => String "5" (digits u)
  | Decimal.D6 u => String "6" (digits u)
  | Decimal.D7 u => String "7" (digits u)
  | Decimal.D8 u => String "8" (digits u)
  | Decimal.D9 u => String "9" (digits u)
  end.

(** Number::toString for an integer (below 10^21, where the built-in
    switches to exponent notation). *)
Definition number_to_string (n : Z) : string :=
  if n <? 0 then String "-" (digits (N.to_uint (Z.abs_N n)))
  else digits (N.to_uint (Z.abs_N n)).

(** The texts of the entries of an array or object, separated by commas
    and followed by the closing bracket. *)
Fixpoint join_close (close : ascii) (parts : list string) : string :=
  match parts with
  | [] => str1 close
  | [p] => p +:+ str1 close
  | p :: rest => p +:+ String "," (join_close close rest)
  end.

(** A member of an object: the quoted key, a colon, the value. *)
Definition member_text (print : json → string) (kv : string * json) : string :=
  quote (fst kv) +:+ String ":" (print (snd kv)).

Fixpoint JSON_stringify (v : json) : string :=
  match v with
  | JNull => "null"
  | JBool true => "true"
  | JBool false => "false"
  | JNum n => number_to_string n
  | JStr s => quote s
  | JArr l => String "[" (join_close "]" (map JSON_stringify l))
  | JObj l => String "{" (join_close "}" (map (member_text JSON_stringify) l))
  end.

(** *** [JSON.parse]

    A recursive-descent reader of the JSON grammar; [None] is the
    [SyntaxError] the built-in throws.  A number token with a fraction or
    an exponent, and a [\u] escape above code unit 255, denote values outside
    the model and are not read. *)

Definition is_json_space (c : ascii) : bool :=
  (c =? " ")%char || (c =? "009")%char || (c =? "010")%char
  || (c =? "013")%char.

Fixpoint skip_ws (s : string) : string :=
  match s with
  | EmptyString => EmptyString
  | String c r => if is_json_space c then skip_ws r else s
  end.

Definition digit_of_char (c : ascii)
  : option (Decimal.uint → Decimal.uint) :=
  match char_code c with
  | 48%N => Some Decimal.D0
  | 49%N => Some Decimal.D1
  | 50%N => Some Decimal.D2
  | 51%N => Some Decimal.D3
  | 52%N => Some Decimal.D4
  | 53%N => Some Decimal.D5
  | 54%N => Some Decimal.D6
  | 55%N => Some Decimal.D7
  | 56%N => Some Decimal.D8
  | 57%N => Some Decimal.D9
  | _ => None
  end.

(** The longest prefix of decimal digits, and what follows it. *)
Fixpoint take_digits (s : string) : Decimal.uint * string :=
  match s with
  | EmptyString => (Decimal.Nil, EmptyString)
  | String c r =>
      match digit_of_char c with
      | Some d => let '(u, rest) := take_digits r in (d u, rest)
      | None => (Decimal.Nil, s)
      end
  end.

(** What may not follow the digits of an integer token. *)
Definition continues_number (s : string) : bool :=
  match s with
  | String c _ => (c =? ".")%char || (c =? "e")%char || (c =? "E")%char
  | EmptyString => false
  end.

(** An integer token: an optional minus sign, then [0] or a non-zero digit
    followed by digits. *)
Definition parse_int (s : string) : option (Z * string) :=
  let '(negative, s1) :=
    match s with
    | String c r => if (c =? "-")%char then (true, r) else (false, s)
    | EmptyString => (false, s)
    end in
  let '(u, rest) := take_digits s1 in
  let value := Z.of_N (N.of_uint u) in
  let result := Some (if negative : bool then - value else value, rest) in
  if continues_number rest then None
  else match u with
       | Decimal.Nil => None
       | Decimal.D0 Decimal.Nil => result
       | Decimal.D0 _ => None
       | _ => result
       end.

Definition hex_value (c : ascii) : option N :=
  let n := char_code c in
  if (48 <=? n)%N && (n <=? 57)%N then Some (n - 48)%N
  else if (97 <=? n)%N && (n <=? 102)%N then Some (n - 87)%N
  else if (65 <=? n)%N && (n <=? 70)%N then Some (n - 55)%N
  else None.

(** The code unit of [\uXXXX], when it is below 256. *)
Definition hex4 (a b c d : ascii) : option ascii :=
  a' ← hex_value a; b' ← hex_value b; c' ← hex_value c; d' ← hex_value d;
  let n := (((a' * 16 + b') * 16 + c') * 16 + d')%N in
  if (n <? 256)%N then Some (ascii_of_N n) else None.

(** The character a one-letter escape denotes. *)
Definition unescape (e : ascii) : option ascii :=
  if (e =? dquote)%char then Some dquote
  else if (e =? bslash)%char then Some bslash
  else if (e =? "/")%char then Some "/"%char
  else if (e =? "b")%char then Some "008"%char
  else if (e =? "f")%char then Some "012"%char
  else if (e =? "n")%char then Some "010"%char
  else if (e =? "r")%char then Some "013"%char
  else if (e =? "t")%char then Some "009"%char
  else None.

(** The characters of a string token after its opening quote, up to and
    including the closing quote. *)
Fixpoint parse_chars (s : string) : option (string * string) :=
  match s with
  | EmptyString => None
  | String c r =>
      if (c =? dquote)%char then Some (EmptyString, r)
      else if (c =? bslash)%char then
        match r with
        | EmptyString => None
        | String e r1 =>
            if (e =? "u")%char then
              match r1 with
              | String h1 (String h2 (String h3 (String h4 r2))) =>
                  x ← hex4 h1 h2 h3 h4;
                  '(body, rest) ← parse_chars r2;
                  Some (String x body, rest)
              | _ => None
              end
            else
              x ← unescape e;
              '(body, rest) ← parse_chars r1;
              Some (String x body, rest)
        end
      else if (char_code c <? 32)%N then None
      else
        '(body, rest) ← parse_chars r;
        Some (String c body, rest)
  end.

(** The rest of [s] after the prefix [p], when [s] starts with [p]. *)
Fixpoint strip_prefix (p s : string) : option string :=
  match p with
  | EmptyString => Some s
  | String a p' =>
      match s with
      | String b s' => if (a =? b)%char then strip_prefix p' s' else None
      | EmptyString => None
      end
  end.

(** Setting a property: a key already present keeps its place and takes the
    new value, a new key goes last. *)
Fixpoint obj_set (k : string) (v : json) (o : list (string * json))
  : list (string * json) :=
  match o with
  | [] => [(k, v)]
  | (k', v') :: rest =>
      if decide (k' = k) then (k, v) :: rest else (k', v') :: obj_set k v rest
  end.

(** The object a sequence of members builds: a repeated key keeps its last
    value. *)
Definition object_of (members : list (string * json)) : list (string * json) :=
  foldl (λ o kv, obj_set (fst kv) (snd kv) o) [] members.

Fixpoint parse_value (fuel : nat) (s : string) : option (json * string) :=
  match fuel with
  | O => None
  | S fuel =>
      match skip_ws s with
      | EmptyString => None
      | String c r =>
          if (c =? dquote)%char then
            '(str, rest) ← parse_chars r; Some (JStr str, rest)
          else if (c =? "[")%char then
            match skip_ws r with
            | String c' r' =>
                if (c' =? "]")%char then Some (JArr [], r')
                else '(l, rest) ← parse_elements fuel r; Some (JArr l, rest)
            | EmptyString => None
            end
          else if (c =? "{")%char then
            match skip_ws r with
            | String c' r' =>
                if (c' =? "}")%char then Some (JObj [], r')
                else '(l, rest) ← parse_members fuel r;
                     Some (JObj (object_of l), rest)
            | EmptyString => None
            end
          else if (c =? "n")%char then
            rest ← strip_prefix "ull" r; Some (JNull, rest)
          else if (c =? "t")%char then
            rest ← strip_prefix "rue" r; Some (JBool true, rest)
          else if (c =? "f")%char then
            rest ← strip_prefix "alse" r; Some (JBool false, rest)
          else
            '(n, rest) ← parse_int (String c r); Some (JNum n, rest)
      end
  end
with parse_elements (fuel : nat) (s : string)
  : option (list json * string) :=
  match fuel with
  | O => None
  | S fuel =>
      '(v, r) ← parse_value fuel s;
      match skip_ws r with
      | String c r' =>
          if (c =? ",")%char then
            '(l, rest) ← parse_elements fuel r'; Some (v :: l, rest)
          else if (c =? "]")%char then Some ([v], r')
          else None
      | EmptyString => None
      end
  end
with parse_members (fuel : nat) (s : string)
  : option (list (string * json) * string) :=
  match fuel with
  | O => None
  | S fuel =>
      match skip_ws s with
      | String c r =>
          if (c =? dquote)%char then
            '(k, r1) ← parse_chars r;
            match skip_ws r1 with
            | String c1 r2 =>
                if (c1 =? ":")%char then
                  '(v, r3) ← parse_value fuel r2;
                  match skip_ws r3 with
                  | String c3 r4 =>
                      if (c3 =? ",")%char then
                        '(l, rest) ← parse_members fuel r4;
                        Some ((k, v) :: l, rest)
                      else if (c3 =? "}")%char then Some ([(k, v)], r4)
                      else None
                  | EmptyString => None
                  end
                else None
            | EmptyString => None
            end
          else None
      | EmptyString => None
      end
  end.

(** The fuel the reader uses on the text of a value: one unit for the
    value, and one for each entry on the way into an array or object. *)
Fixpoint need (v : json) : nat :=
  match v with
  | JArr l => S (foldr (λ v n, S (Nat.max (need v) n)) O l)
  | JObj l => S (foldr (λ kv n, S (Nat.max (need (snd kv)) n)) O l)
  | _ => 1%nat
  end.

Definition need_elements (l : list json) : nat :=
  foldr (λ v n, S (Nat.max (need v) n)) O l.

Definition need_members (l : list (string * json)) : nat :=
  foldr (λ kv n, S (Nat.max (need (snd kv)) n)) O l.

(** The characters a value can start with. *)
Definition starts_value (c : ascii) : bool :=
  (c =? dquote)%char || (c =? "[")%char || (c =? "{")%char
  || (c =? "n")%char || (c =? "t")%char || (c =? "f")%char
  || (c =? "-")%char || bool_decide (digit_of_char c ≠ None).

(** What follows a value inside a text [JSON.stringify] writes: nothing, a
    comma or a closing bracket. *)
Definition closes_value (rest : string) : bool :=
  match rest with
  | EmptyString => true
  | String c _ => (c =? ",")%char || (c =? "]")%char || (c =? "}")%char
  end.

(** [JSON.parse(text)]: one value, with nothing but white space after it.
    Two units of fuel per character are enough for every text (lemma
    [JSON_parse_any_fuel]). *)
Definition JSON_parse (text : string) : option json :=
  '(v, rest) ← parse_value (2 * String.length text + 1) text;
  match skip_ws rest with
  | EmptyString => Some v
  | _ => None
  end.

(** *** [localStorage], [save] and [load] *)

Abbreviation storage := (gmap string string).

(** [localStorage.setItem(k, JSON.stringify(v))] *)
Definition save (k : string) (v : json) (st : storage) : storage :=
  <[k := JSON_stringify v]> st.

(** [localStorage.getItem(k)] is [null] for a missing key, and
    [JSON.parse] reads its argument as a string: [null] reads as the text
    [null]. *)
Definition getItem_text (st : storage) (k : string) : string :=
  default "null" (st !! k).

(** [load(k, fallback)]: a thrown [SyntaxError] is caught, and
    [v ?? fallback] replaces a [null] result. *)
Definition load (k : string) (fallback : json) (st : storage) : json :=
  match JSON_parse (getItem_text st k) with
  | Some v =>
      match v with
      | JNull => fallback
      | _ => v
      end
  | None => fallback
  end.

(** ** Handlers of the cart drawer and the navbar *)

(** The badge of the cart button: [cart.reduce((s, i) => s + i.qty, 0)]. *)
Definition cartCount (cart : list item) : Z :=
  foldl (λ s i, s + Item.qty i) 0 cart.

(** The [-] and [+] buttons of a rendered line [i]:
    [updateQty(i.id, i.qty - 1)] and [updateQty(i.id, i.qty + 1)]. *)
Definition minus_click (i : item) (prev : list item) : list item :=
  updateQty (Item.id i) (Item.qty i - 1) prev.

Definition plus_click (i : item) (prev : list item) : list item :=
  updateQty (Item.id i) (Item.qty i + 1) prev.

(** What the user can do to the cart, and a session of such actions.
    [OrderPlaced] is [setCart([])]. *)
Inductive cart_action : Type :=
| Add (p : product) (oqty : option Z)
| Remove (id : string)
| SetQty (id : string) (qty : Z)
| OrderPlaced.

Definition cart_step (cart : list item) (a : cart_action) : list item :=
  match a with
  | Add p oqty => addToCart p oqty cart
  | Remove id => removeFromCart id cart
  | SetQty id qty => updateQty id qty cart
  | OrderPlaced => []
  end.

Definition cart_session (actions : list cart_action) (cart : list item)
  : list item :=
  foldl cart_step cart actions.

(** The storefront adds one unit at a time ([addToCart(p)]); an action adds
    a positive quantity when it adds at all. *)
Definition adds_positive (a : cart_action) : Prop :=
  match a with
  | Add _ oqty => 1 ≤ default 1 oqty
  | _ => True
  end.

(** The identifiers of the lines of a cart, and of the entries of a
    catalogue, in order. *)
Definition cart_ids (cart : list item) : list string := Item.id <$> cart.

Definition catalog_ids (list : list product) : Datatypes.list string :=
  Product.id <$> list.

(** ** The cart as it is persisted

    A line item is the object [{ id, name, price, qty, image }] built by
    [addToCart]; [save("vk_cart", cart)] writes the array of these. *)
Definition item_json (i : item) : json :=
  JObj [("id", JStr (Item.id i));
        ("name", JStr (Item.name i));
        ("price", JNum (Item.price i));
        ("qty", JNum (Item.qty i));
        ("image", from_option JStr JNull (Item.image i))].

Definition cart_json (cart : list item) : json := JArr (item_json <$> cart).


(** The effect [useEffect(() => save("vk_cart", cart), [cart])] and the
    initial state [useState(load("vk_cart", []))] of [App]. *)
Definition persist_cart (cart : list item) (st : storage) : storage :=
  save "vk_cart" (cart_json cart) st.

Definition initial_cart (st : storage) : json :=
  load "vk_cart" (cart_json []) st.

(** ** Sample data *)

Definition shirt : product :=
  Product.mk "p1" "Ao thun" 169000 "Ao thun" 120 (48 # 10)
             (Some [Some "/img-1.jpg"]) "Cotton".

Definition mug_line : item := Item.mk "p2" "Coc su" 99000 1 None.

Definition mug : product :=
  Product.mk "p2" "Coc su" 99000 "Phu kien" 80 (47 # 10)
             (Some [Some "/img-3.jpg"]) "Coc su trang".

Definition mug_edit : product :=
  Product.mk "p2" "Coc su lon" 119000 "Phu kien" 40 (47 # 10)
             (Some [None]) "Coc su trang, 500ml".

Definition pen : product :=
  Product.mk "p6" "But ky Viet Ky" 99000 "Phu kien" 150 (45 # 10)
             (Some [Some "/img-4.jpg"]) "But kim loai".

Definition notebook : product :=
  Product.mk "p4" "So tay da Viet Ky" 110000 "Phu kien" 60 (49 # 10)
             (Some [Some "/img-5.jpg"]) "So tay bia da".

(** The persisted form of a cart with one line. *)
Definition stored_cart : json :=
  JArr [JObj [("id", JStr "p2"); ("name", JStr "Coc su");
              ("price", JNum 99000); ("qty", JNum 1); ("image", JNull)]].

Definition shirt_line : item :=
  Item.mk "p1" "Ao thun" 169000 2 (Some "/img-1.jpg").

Definition mug3_line : item := Item.mk "p2" "Coc su" 99000 3 None.

(** A draft of the admin panel, under the identifier drawn for it. *)
Definition draft : product :=
  Product.mk "a1b2c3d" "Non la" 59000 "Phu kien" 10 (48 # 10)
             (Some [None]) "Non la Viet Ky".

Definition sample_session : list cart_action :=
  [Add shirt None; Add mug (Some 2); SetQty "p1" 0; Add shirt None;
   Remove "p2"; Add mug None].


(** * Properties *)

(** ** Cart store *)

Section cart_lines.
Variable pid : string.

Lemma lines_of_cons (i : item) (cart : list item) :
  lines_of pid (i :: cart) =
  if decide (Item.id i = pid) then i :: lines_of pid cart
  else lines_of pid cart.
Proof. unfold lines_of. rewrite filter_cons. reflexivity. Qed.

Lemma lines_of_app (c1 c2 : list item) :
  lines_of pid (c1 ++ c2) = lines_of pid c1 ++ lines_of pid c2.
Proof. apply filter_app. Qed.

Lemma lines_of_nil_iff (cart : list item) :
  lines_of pid cart = [] ↔ Forall (λ i, Item.id i ≠ pid) cart.
Proof.
  induction cart as [|i cart IH]; [by split|].
  rewrite lines_of_cons, Forall_cons. case_decide; [|tauto].
  split; [discriminate | tauto].
Qed.

(** Bumping the quantities of the lines of another product leaves the
    lines of [pid] as they are. *)
Lemma lines_of_bump_other (other : string) (q : Z) (cart : list item) :
  other ≠ pid →
  lines_of pid
    (map (λ i, if decide (Item.id i = other)
               then Item.with_qty i (Item.qty i + q) else i) cart)
  = lines_of pid cart.
Proof.
  intros Hne. induction cart as [|i cart IH]; [done|].
  cbn [map]. rewrite !lines_of_cons, IH.
  destruct (decide (Item.id i = other)) as [Hi|Hi]; cbn; [|done].
  rewrite !decide_False by congruence. done.
Qed.

(** Bumping the quantities of the lines of [pid] maps over its lines. *)
Lemma lines_of_bump_same (q : Z) (cart : list item) :
  lines_of pid
    (map (λ i, if decide (Item.id i = pid)
               then Item.with_qty i (Item.qty i + q) else i) cart)
  = map (λ i, Item.with_qty i (Item.qty i + q)) (lines_of pid cart).
Proof.
  induction cart as [|i cart IH]; [done|].
  cbn [map]. rewrite !lines_of_cons, IH.
  destruct (decide (Item.id i = pid)) as [Hi|Hi]; cbn.
  - rewrite decide_True by done. done.
  - rewrite decide_False by done. done.
Qed.

Lemma find_none_lines (cart : list item) :
  list_find (λ i, Item.id i = pid) cart = None ↔ lines_of pid cart = [].
Proof. rewrite list_find_None, lines_of_nil_iff. done. Qed.

(** A call for another product does not touch the lines of [pid]. *)
Lemma addToCart_other (p : product) (oq : option Z) (cart : list item) :
  Product.id p ≠ pid →
  lines_of pid (addToCart p oq cart) = lines_of pid cart.
Proof.
  intros Hne. unfold addToCart.
  destruct (list_find _ cart) as [[n i]|].
  - by apply lines_of_bump_other.
  - rewrite lines_of_app, lines_of_cons. cbn.
    rewrite decide_False by done. apply app_nil_r.
Qed.

(** The first call for [pid] appends its line. *)
Lemma addToCart_first (p : product) (oq : option Z) (cart : list item) :
  Product.id p = pid → lines_of pid cart = [] →
  ∃ i, lines_of pid (addToCart p oq cart) = [i]
       ∧ Item.qty i = default 1 oq.
Proof.
  intros Hp Hnone. unfold addToCart. rewrite Hp.
  apply find_none_lines in Hnone as Hfind. rewrite Hfind.
  eexists. rewrite lines_of_app, Hnone, lines_of_cons. cbn.
  rewrite decide_True by done. done.
Qed.

(** A later call for [pid] adds to its line. *)
Lemma addToCart_again (p : product) (oq : option Z) (cart : list item)
      (i0 : item) :
  Product.id p = pid → lines_of pid cart = [i0] →
  lines_of pid (addToCart p oq cart)
  = [Item.with_qty i0 (Item.qty i0 + default 1 oq)].
Proof.
  intros Hp Hone. unfold addToCart. rewrite Hp.
  destruct (list_find _ cart) as [[n i]|] eqn:Hfind.
  - rewrite lines_of_bump_same, Hone. done.
  - apply find_none_lines in Hfind. congruence.
Qed.

Lemma added_qty_cons (p : product) (oq : option Z) (calls : list call) :
  added_qty pid ((p, oq) :: calls) =
  if decide (Product.id p = pid) then default 1 oq + added_qty pid calls
  else added_qty pid calls.
Proof. reflexivity. Qed.

Lemma run_adds_cons (k : call) (calls : list call) (cart : list item) :
  run_adds (k :: calls) cart = run_adds calls (addToCart k.1 k.2 cart).
Proof. reflexivity. Qed.

(** Once the cart has one line for [pid], any sequence of calls keeps
    it single and adds what the calls for [pid] contribute. *)
Lemma run_adds_one_line (calls : list call) :
  ∀ (cart : list item) (i0 : item),
    lines_of pid cart = [i0] →
    ∃ i, lines_of pid (run_adds calls cart) = [i]
         ∧ Item.qty i = Item.qty i0 + added_qty pid calls.
Proof.
  induction calls as [|[p oq] calls IH]; intros cart i0 Hone.
  - exists i0. split; [done|]. cbn. lia.
  - rewrite run_adds_cons, added_qty_cons. cbn [fst snd].
    destruct (decide (Product.id p = pid)) as [Hp|Hp].
    + pose proof (addToCart_again p oq cart i0 Hp Hone) as Hnext.
      destruct (IH _ _ Hnext) as (i & Hi & Hq).
      exists i. split; [done|]. rewrite Hq. cbn. lia.
    + apply IH. rewrite addToCart_other; done.
Qed.

(** From a cart without a line for [pid], a sequence of calls with at
    least one call for [pid] ends with exactly one line for it. *)
Lemma run_adds_no_line (calls : list call) :
  ∀ cart : list item,
    lines_of pid cart = [] →
    Exists (λ k : call, Product.id k.1 = pid) calls →
    ∃ i, lines_of pid (run_adds calls cart) = [i]
         ∧ Item.qty i = added_qty pid calls.
Proof.
  induction calls as [|[p oq] calls IH]; intros cart Hnone Hex.
  - by apply Exists_nil in Hex.
  - rewrite run_adds_cons, added_qty_cons. cbn [fst snd].
    destruct (decide (Product.id p = pid)) as [Hp|Hp].
    + destruct (addToCart_first p oq cart Hp Hnone) as (i0 & Hi0 & Hq0).
      destruct (run_adds_one_line calls _ _ Hi0) as (i & Hi & Hq).
      exists i. split; [done|]. rewrite Hq, Hq0. done.
    + apply Exists_cons in Hex as [Hex|Hex]; [done|].
      apply IH; [|done]. rewrite addToCart_other; done.
Qed.

(** When every call is for [pid], what the calls contribute is the sum
    of their quantities. *)
Lemma added_qty_all (calls : list call) :
  Forall (λ k : call, Product.id k.1 = pid) calls →
  added_qty pid calls = foldr Z.add 0 (call_qty <$> calls).
Proof.
  induction 1 as [|k calls Hk _ IH]; [done|].
  unfold added_qty in *. cbn. rewrite decide_True by done. by rewrite IH.
Qed.
End cart_lines.

(** C1. Starting from a cart with no line item for the identifier [pid],
    after any non-empty sequence of [addToCart] calls for products with
    that identifier the cart holds exactly one line item for [pid], and its
    quantity is the sum of the quantities of the calls, an omitted quantity
    counting 1. *)
Theorem addToCart_merges (pid : string) (calls : list call)
        (cart : list item) :
  Forall (λ i, Item.id i ≠ pid) cart →
  calls ≠ [] →
  Forall (λ k : call, Product.id k.1 = pid) calls →
  ∃ i, lines_of pid (run_adds calls cart) = [i]
       ∧ Item.qty i = foldr Z.add 0 (call_qty <$> calls).
Proof.
  intros Hcart Hne Hall.
  rewrite <- (added_qty_all pid calls Hall).
  apply run_adds_no_line.
  - by apply lines_of_nil_iff.
  - destruct calls as [|k calls]; [done|].
    apply Forall_cons in Hall as [Hk _]. by left.
Qed.

Lemma addToCart_merges_witness :
  ∃ i, lines_of "p1"
         (run_adds [(shirt, None); (shirt, Some 3); (shirt, None)] [mug_line])
       = [i]
       ∧ Item.qty i = 5.
Proof.
  apply (addToCart_merges "p1"
           [(shirt, None); (shirt, Some 3); (shirt, None)] [mug_line]).
  - repeat constructor. discriminate.
  - discriminate.
  - repeat constructor.
Defined.

Lemma updateQty_lookup (id : string) (q : Z) (cart : list item) (n : nat) :
  updateQty id q cart !! n =
  (λ i, if decide (Item.id i = id) then Item.with_qty i (Z.max 1 q) else i)
    <$> cart !! n.
Proof. unfold updateQty. apply list_lookup_fmap. Qed.

Lemma updateQty_length (id : string) (q : Z) (cart : list item) :
  length (updateQty id q cart) = length cart.
Proof. unfold updateQty. apply length_map. Qed.

(** C4. When the cart holds a line item [i] with identifier [id] (at any
    position [n]), [updateQty id q] puts at that position the same line
    with its quantity set to [max 1 q]: the stored quantity is at least 1,
    and exactly 1 for every [q <= 0]. *)
Theorem updateQty_clamps (cart : list item) (id : string) (q : Z)
        (n : nat) (i : item) :
  cart !! n = Some i →
  Item.id i = id →
  ∃ i', updateQty id q cart !! n = Some i'
        ∧ i' = Item.with_qty i (Z.max 1 q)
        ∧ Item.qty i' = Z.max 1 q
        ∧ 1 ≤ Item.qty i'
        ∧ (q ≤ 0 → Item.qty i' = 1).
Proof.
  intros Hn Hid. exists (Item.with_qty i (Z.max 1 q)).
  rewrite updateQty_lookup, Hn. cbn. rewrite decide_True by done.
  repeat split; lia.
Qed.

Lemma updateQty_clamps_witness :
  ∃ i', updateQty "p2" (-4) [mug_line] !! 0%nat = Some i'
        ∧ i' = Item.with_qty mug_line (Z.max 1 (-4))
        ∧ Item.qty i' = Z.max 1 (-4)
        ∧ 1 ≤ Item.qty i'
        ∧ (-4 ≤ 0 → Item.qty i' = 1).
Proof.
  apply (updateQty_clamps [mug_line] "p2" (-4) 0 mug_line); reflexivity.
Defined.

(** Every line of the updated cart that carries the identifier has the
    clamped quantity, so none is left at zero or below. *)
Lemma updateQty_all_clamped (cart : list item) (id : string) (q : Z) :
  Forall (λ i, Item.qty i = Z.max 1 q) (lines_of id (updateQty id q cart)).
Proof.
  induction cart as [|i cart IH]; [constructor|].
  unfold updateQty in *. cbn [map]. rewrite lines_of_cons.
  destruct (decide (Item.id i = id)) as [Hi|Hi]; cbn.
  - rewrite decide_True by done. by constructor.
  - rewrite decide_False by done. done.
Qed.

(** C10. When no line item of the cart has the identifier [id],
    [updateQty id q] returns the cart unchanged, line by line. *)
Theorem updateQty_absent (cart : list item) (id : string) (q : Z) :
  Forall (λ i, Item.id i ≠ id) cart →
  updateQty id q cart = cart.
Proof.
  unfold updateQty. induction 1 as [|i cart Hi _ IH]; [done|].
  cbn [map]. rewrite IH, decide_False by done. done.
Qed.

Lemma updateQty_absent_witness : updateQty "p1" 7 [mug_line] = [mug_line].
Proof.
  apply (updateQty_absent [mug_line] "p1" 7).
  repeat constructor. discriminate.
Defined.

(** ** Pricing engine *)

Lemma total_from (cart : list item) (s : Z) :
  foldl (λ s i, s + Item.price i * Item.qty i) s cart = s + sum_lines cart.
Proof.
  revert s. induction cart as [|i cart IH]; intros s; cbn; [lia|].
  rewrite IH. lia.
Qed.

(** C3. The subtotal of a cart is the sum over its line items of price
    times quantity; the shipping fee of a subtotal is 0 when the subtotal
    is strictly above 500000 and 30000 otherwise, so 500000 pays 30000 and
    500001 pays nothing. *)
Theorem subtotal_and_shipping (cart : list item) :
  total cart = sum_lines cart
  ∧ (500000 < total cart ∧ shippingFee (total cart) = 0
     ∨ total cart ≤ 500000 ∧ shippingFee (total cart) = 30000)
  ∧ shippingFee 500000 = 30000
  ∧ shippingFee 500001 = 0.
Proof.
  split; [|split; [|split; reflexivity]].
  - unfold total. rewrite total_from. lia.
  - unfold shippingFee. destruct (500000 <? total cart) eqn:Hlt.
    + left. apply Z.ltb_lt in Hlt. done.
    + right. apply Z.ltb_ge in Hlt. done.
Qed.

(** The fee depends on the subtotal alone, whichever cart produced it. *)
Lemma shippingFee_cases (t : Z) :
  500000 < t ∧ shippingFee t = 0 ∨ t ≤ 500000 ∧ shippingFee t = 30000.
Proof.
  unfold shippingFee. destruct (500000 <? t) eqn:Hlt.
  - left. apply Z.ltb_lt in Hlt. done.
  - right. apply Z.ltb_ge in Hlt. done.
Qed.

(** [Math.round(total * 0.1)] in integer arithmetic. *)
Lemma Math_round_tenth (t : Z) :
  Math_round (inject_Z t * (1 # 10)) = (t + 5) / 10.
Proof.
  unfold Math_round.
  assert (Heq : (inject_Z t * (1 # 10) + (1 # 2) == (t + 5) # 10)%Q).
  { unfold Qeq, Qplus, Qmult, inject_Z. cbn [Qnum Qden]. lia. }
  rewrite (Qfloor_comp _ _ Heq). reflexivity.
Qed.


(** The three spellings the design document lists are accepted, and the
    worked example of the document comes out as stated. *)
Example coupon_spellings :
  toUpperCase (trim "vietky10") = "VIETKY10"
  ∧ toUpperCase (trim " VIETKY10 ") = "VIETKY10"
  ∧ toUpperCase (trim "VietKy10") = "VIETKY10"
  ∧ toUpperCase (trim "VIETKY 10") ≠ "VIETKY10".
Proof. repeat split; discriminate. Qed.

Example checkout_worked :
  let cart := [Item.mk "p1" "Ao thun" 169000 2 None] in
  total cart = 338000
  ∧ shippingFee (total cart) = 30000
  ∧ checkout cart "VIETKY10" = {| discount := 33800; grand := 334200 |}
  ∧ checkout cart "SALE" = {| discount := 0; grand := 368000 |}.
Proof. repeat split. Qed.

(** ** Catalog store *)

(** C7. When no product of the catalogue has the identifier [id],
    [deleteProduct id] returns the catalogue unchanged, entry by entry. *)
Theorem deleteProduct_absent (id : string) (list : list product) :
  Forall (λ p, Product.id p ≠ id) list →
  deleteProduct id list = list.
Proof.
  unfold deleteProduct. induction 1 as [|p l Hp _ IH]; [done|].
  rewrite filter_cons, decide_True by done. by rewrite IH.
Qed.

Lemma deleteProduct_absent_witness :
  deleteProduct "p9" [shirt; mug] = [shirt; mug].
Proof.
  apply (deleteProduct_absent "p9" [shirt; mug]).
  repeat constructor; discriminate.
Defined.

(** C6. When the identifier of [p] occurs in the catalogue, [upsertProduct]
    writes [p] at the position [idx] of the first entry with that
    identifier: the catalogue keeps its length, position [idx] holds [p],
    and every other position holds what it held before. *)
Theorem upsertProduct_in_place (p : product) (fresh : string)
        (list : list product) :
  Exists (λ x, Product.id x = Product.id p) list →
  ∃ (idx : nat) (old : product),
    list !! idx = Some old
    ∧ Product.id old = Product.id p
    ∧ (∀ j y, list !! j = Some y → (j < idx)%nat →
              Product.id y ≠ Product.id p)
    ∧ upsertProduct p fresh list = <[idx := p]> list
    ∧ length (upsertProduct p fresh list) = length list
    ∧ upsertProduct p fresh list !! idx = Some p
    ∧ (∀ j, j ≠ idx → upsertProduct p fresh list !! j = list !! j).
Proof.
  intros Hex. unfold upsertProduct.
  destruct (list_find _ list) as [[idx old]|] eqn:Hfind.
  - apply list_find_Some in Hfind as (Hidx & Hold & Hbefore).
    exists idx, old. repeat split; try done.
    + apply length_insert.
    + apply list_lookup_insert_eq. by eapply lookup_lt_Some.
    + intros j Hj. by apply list_lookup_insert_ne.
  - apply list_find_None in Hfind. apply Exists_exists in Hex as (x & Hx & Hid).
    rewrite Forall_forall in Hfind. by apply Hfind in Hx.
Qed.

Lemma upsertProduct_in_place_witness :
  ∃ (idx : nat) (old : product),
    [shirt; mug] !! idx = Some old
    ∧ Product.id old = Product.id mug_edit
    ∧ (∀ j y, [shirt; mug] !! j = Some y → (j < idx)%nat →
              Product.id y ≠ Product.id mug_edit)
    ∧ upsertProduct mug_edit "zz" [shirt; mug] = <[idx := mug_edit]> [shirt; mug]
    ∧ length (upsertProduct mug_edit "zz" [shirt; mug]) = length [shirt; mug]
    ∧ upsertProduct mug_edit "zz" [shirt; mug] !! idx = Some mug_edit
    ∧ (∀ j, j ≠ idx →
            upsertProduct mug_edit "zz" [shirt; mug] !! j = [shirt; mug] !! j).
Proof.
  apply (upsertProduct_in_place mug_edit "zz" [shirt; mug]).
  right. left. reflexivity.
Defined.

Example upsertProduct_replaces :
  upsertProduct mug_edit "zz" [shirt; mug] = [shirt; mug_edit].
Proof. reflexivity. Qed.

Example upsertProduct_prepends :
  upsertProduct mug_edit "zz" [shirt] = [Product.with_id mug_edit "zz"; shirt].
Proof. reflexivity. Qed.

(** ** Query engine *)

Section stable_sort.
Context {A : Type} (cmp : A → A → Q) (R : A → A → Prop).
Hypothesis R_trans : ∀ a b c, R a b → R b c → R a c.
Hypothesis cmp_le : ∀ a b, Qle_bool (cmp a b) 0 = true → R a b.
Hypothesis cmp_gt : ∀ a b, Qle_bool (cmp a b) 0 = false → R b a.

Lemma sort_insert_perm (x : A) (l : list A) :
  Permutation (sort_insert cmp x l) (x :: l).
Proof using Type.
  induction l as [|y l IH]; cbn; [done|].
  destruct (Qle_bool (cmp x y) 0); [done|].
  rewrite IH. apply perm_swap.
Qed.

Lemma js_sort_perm (l : list A) : Permutation (js_sort cmp l) l.
Proof using Type.
  induction l as [|x l IH]; cbn; [done|].
  rewrite sort_insert_perm. by constructor.
Qed.

Lemma sort_insert_sorted (x : A) (l : list A) :
  StronglySorted R l → StronglySorted R (sort_insert cmp x l).
Proof using R_trans cmp_le cmp_gt.
  induction 1 as [|y l Hl IH Hy]; cbn.
  - repeat constructor.
  - destruct (Qle_bool (cmp x y) 0) eqn:Hcmp.
    + constructor; [by constructor|].
      constructor; [by apply cmp_le|].
      eapply Forall_impl; [exact Hy|]. intros z Hz.
      eapply R_trans; [by apply cmp_le | done].
    + constructor; [done|].
      rewrite (sort_insert_perm x l). constructor; [by apply cmp_gt | done].
Qed.

Lemma js_sort_sorted (l : list A) : StronglySorted R (js_sort cmp l).
Proof using R_trans cmp_le cmp_gt.
  induction l as [|x l IH]; cbn; [constructor|].
  by apply sort_insert_sorted.
Qed.

(** Stability: entries that the comparator does not separate keep their
    order.  [keep] selects a class of entries closed under "not placed
    after": an entry of the class is never moved behind another one. *)
Lemma sort_insert_stable (keep : A → Prop) `{!∀ a, Decision (keep a)}
      (x : A) (l : list A) :
  (∀ a b, keep a → keep b → Qle_bool (cmp a b) 0 = true) →
  filter keep (sort_insert cmp x l) = filter keep (x :: l).
Proof using Type.
  intros Hkeep. induction l as [|y l IH]; cbn [sort_insert]; [done|].
  destruct (Qle_bool (cmp x y) 0) eqn:Hcmp; [done|].
  rewrite (filter_cons _ y), IH, !(filter_cons _ x), (filter_cons _ y).
  destruct (decide (keep y)) as [Hy|Hy]; [|done].
  destruct (decide (keep x)) as [Hx|Hx]; [|done].
  rewrite Hkeep in Hcmp by done. discriminate.
Qed.

Lemma js_sort_stable (keep : A → Prop) `{!∀ a, Decision (keep a)}
      (l : list A) :
  (∀ a b, keep a → keep b → Qle_bool (cmp a b) 0 = true) →
  filter keep (js_sort cmp l) = filter keep l.
Proof using Type.
  intros Hkeep. induction l as [|x l IH]; cbn [js_sort foldr]; [done|].
  rewrite sort_insert_stable by done. fold (js_sort cmp l).
  by rewrite !filter_cons, IH.
Qed.
End stable_sort.

Lemma Qle_bool_false (q : Q) : Qle_bool q 0 = false → (0 < q)%Q.
Proof.
  intros H. apply Qnot_le_lt. intros Hle.
  apply Qle_bool_iff in Hle. congruence.
Qed.

Lemma js_sort_rating_desc (l : list product) :
  rating_desc (js_sort by_rating_desc l).
Proof.
  apply js_sort_sorted; unfold by_rating_desc.
  - intros a b c Hab Hbc. by eapply Qle_trans.
  - intros a b H. apply Qle_bool_iff in H.
    apply (Qplus_le_l _ _ (- Product.rating a)%Q).
    rewrite Qplus_opp_r. exact H.
  - intros a b H. apply Qle_bool_false in H. apply Qlt_le_weak.
    apply (Qplus_lt_l _ _ (- Product.rating a)%Q).
    rewrite Qplus_opp_r. exact H.
Qed.

Lemma js_sort_price_asc (l : list product) :
  StronglySorted (λ a b, Product.price a ≤ Product.price b)
                 (js_sort by_price_asc l).
Proof.
  apply js_sort_sorted; unfold by_price_asc.
  - intros a b c. lia.
  - intros a b H. apply Qle_bool_iff in H.
    change 0%Q with (inject_Z 0) in H. rewrite <- Zle_Qle in H. lia.
  - intros a b H. apply Qle_bool_false in H.
    change 0%Q with (inject_Z 0) in H. rewrite <- Zlt_Qlt in H. lia.
Qed.

Lemma js_sort_price_desc (l : list product) :
  StronglySorted (λ a b, Product.price b ≤ Product.price a)
                 (js_sort by_price_desc l).
Proof.
  apply js_sort_sorted; unfold by_price_desc.
  - intros a b c. lia.
  - intros a b H. apply Qle_bool_iff in H.
    change 0%Q with (inject_Z 0) in H. rewrite <- Zle_Qle in H. lia.
  - intros a b H. apply Qle_bool_false in H.
    change 0%Q with (inject_Z 0) in H. rewrite <- Zlt_Qlt in H. lia.
Qed.

(** Products of one rating keep their catalogue order under [popular]. *)
Lemma js_sort_rating_stable (r : Q) (l : list product) :
  filter (λ p, Product.rating p == r)%Q (js_sort by_rating_desc l)
  = filter (λ p, Product.rating p == r)%Q l.
Proof.
  apply js_sort_stable. intros a b Ha Hb. apply Qle_bool_iff.
  unfold by_rating_desc, Qminus. rewrite Ha, Hb, Qplus_opp_r. apply Qle_refl.
Qed.




Example filtered_popular :
  filtered [pen; notebook; mug] EmptyString "all" "popular" = [notebook; mug; pen].
Proof. reflexivity. Qed.

Example filtered_search :
  filtered [pen; notebook; mug] "VIET" "Phu kien" "priceAsc" = [pen; notebook].
Proof. reflexivity. Qed.

(** ** Persistence adapter *)

(** *** Reading back a quoted string *)

Lemma append_nil_l (b : string) : EmptyString +:+ b = b.
Proof. reflexivity. Qed.

Lemma append_cons (x : ascii) (a b : string) :
  String x a +:+ b = String x (a +:+ b).
Proof. reflexivity. Qed.

Lemma append_assoc (a b c : string) : (a +:+ b) +:+ c = a +:+ (b +:+ c).
Proof.
  induction a as [|x a IH]; [reflexivity|].
  rewrite !append_cons. by rewrite IH.
Qed.

Lemma append_empty_r (a : string) : a +:+ EmptyString = a.
Proof.
  induction a as [|x a IH]; [reflexivity|].
  rewrite append_cons. by rewrite IH.
Qed.

Ltac each_char c :=
  destruct c as [[] [] [] [] [] [] [] []].

Lemma parse_chars_plain (c : ascii) (r : string) :
  (c =? dquote)%char = false →
  (c =? bslash)%char = false →
  (char_code c <? 32)%N = false →
  parse_chars (String c r)
  = '(body, rest) ← parse_chars r; Some (String c body, rest).
Proof. intros H1 H2 H3. cbn [parse_chars]. by rewrite H1, H2, H3. Qed.

Lemma parse_chars_escape (e x : ascii) (r : string) :
  (e =? "u")%char = false →
  unescape e = Some x →
  parse_chars (String bslash (String e r))
  = '(body, rest) ← parse_chars r; Some (String x body, rest).
Proof.
  intros H1 H2. cbn [parse_chars].
  change (bslash =? dquote)%char with false.
  change (bslash =? bslash)%char with true. cbv iota.
  by rewrite H1, H2.
Qed.

Lemma parse_chars_unicode (h1 h2 h3 h4 x : ascii) (r : string) :
  hex4 h1 h2 h3 h4 = Some x →
  parse_chars
    (String bslash (String "u" (String h1 (String h2 (String h3 (String h4 r))))))
  = '(body, rest) ← parse_chars r; Some (String x body, rest).
Proof.
  intros H1. cbn [parse_chars].
  change (bslash =? dquote)%char with false.
  change (bslash =? bslash)%char with true.
  change ("u" =? "u")%char with true. cbv iota.
  by rewrite H1.
Qed.

(** The three shapes of a quoted code unit. *)
Lemma quote_char_cases (c : ascii) :
  (quote_char c = str1 c
   ∧ (c =? dquote)%char = false ∧ (c =? bslash)%char = false
   ∧ (char_code c <? 32)%N = false)
  ∨ (∃ e, quote_char c = String bslash (str1 e)
          ∧ (e =? "u")%char = false ∧ unescape e = Some c)
  ∨ (∃ h1 h2 h3 h4,
        quote_char c
        = String bslash
            (String "u" (String h1 (String h2 (String h3 (str1 h4)))))
        ∧ hex4 h1 h2 h3 h4 = Some c).
Proof.
  each_char c;
    first [ left; repeat split; reflexivity
          | right; left; eexists; repeat split; reflexivity
          | right; right; do 4 eexists; split; reflexivity ].
Qed.

(** Reading back one quoted code unit. *)
Lemma parse_chars_quote_char (c : ascii) (text body rest : string) :
  parse_chars text = Some (body, rest) →
  parse_chars (quote_char c +:+ text) = Some (String c body, rest).
Proof.
  intros Htext.
  destruct (quote_char_cases c)
    as [(-> & H1 & H2 & H3)|[(e & -> & H1 & H2)|(h1 & h2 & h3 & h4 & -> & H)]].
  - change (str1 c +:+ text) with (String c text).
    rewrite parse_chars_plain, Htext by done. reflexivity.
  - change (String bslash (str1 e) +:+ text)
      with (String bslash (String e text)).
    rewrite (parse_chars_escape e c), Htext by done. reflexivity.
  - rewrite !append_cons. change (str1 h4 +:+ text) with (String h4 text).
    rewrite (parse_chars_unicode h1 h2 h3 h4 c), Htext by done. reflexivity.
Qed.

Lemma parse_chars_quote_body (s rest : string) :
  parse_chars (quote_body s +:+ rest) = Some (s, rest).
Proof.
  induction s as [|c s IH]; [reflexivity|].
  cbn [quote_body]. rewrite append_assoc.
  by apply parse_chars_quote_char.
Qed.

(** *** Reading back an integer *)

Lemma take_digits_cons (c : ascii) (d : Decimal.uint → Decimal.uint)
      (r : string) :
  digit_of_char c = Some d →
  take_digits (String c r) = let '(u, rest) := take_digits r in (d u, rest).
Proof. intros H. cbn [take_digits]. by rewrite H. Qed.

Lemma closes_value_not_digit (c : ascii) (r : string) :
  closes_value (String c r) = true → digit_of_char c = None.
Proof. each_char c; first [discriminate | reflexivity]. Qed.

Lemma closes_value_not_number (rest : string) :
  closes_value rest = true → continues_number rest = false.
Proof.
  destruct rest as [|c r]; [done|].
  each_char c; first [discriminate | reflexivity].
Qed.

Lemma take_digits_digits (u : Decimal.uint) (rest : string) :
  closes_value rest = true →
  take_digits (digits u +:+ rest) = (u, rest).
Proof.
  intros Hrest.
  induction u as [|u IH|u IH|u IH|u IH|u IH|u IH|u IH|u IH|u IH|u IH];
    cbn [digits]; rewrite ?append_cons;
    try (erewrite take_digits_cons by reflexivity; by rewrite IH).
  rewrite append_nil_l. destruct rest as [|c r]; [done|].
  cbn [take_digits]. by rewrite (closes_value_not_digit c r).
Qed.

Lemma to_uint_normal (m : N) : Decimal.unorm (N.to_uint m) = N.to_uint m.
Proof.
  rewrite <- (DecimalN.Unsigned.to_of (N.to_uint m)).
  by rewrite DecimalN.Unsigned.of_to.
Qed.

(** A normal numeral is not empty and has no superfluous leading zero. *)
Lemma normal_token {A} (u : Decimal.uint) (yes no : A) :
  Decimal.unorm u = u →
  match u with
  | Decimal.Nil => no
  | Decimal.D0 Decimal.Nil => yes
  | Decimal.D0 _ => no
  | _ => yes
  end = yes.
Proof.
  intros Hu. destruct u as [|u| | | | | | | | |]; try reflexivity.
  - discriminate Hu.
  - rewrite unorm_D0 in Hu. unfold Decimal.unorm in Hu.
    destruct (Decimal.nzhead u) eqn:Hhead;
      try (by destruct (nzhead_nonzero u u); congruence).
    by injection Hu as <-.
Qed.

Lemma digits_not_minus (u : Decimal.uint) (rest : string) :
  u ≠ Decimal.Nil →
  ∃ c r, digits u +:+ rest = String c r ∧ (c =? "-")%char = false
         ∧ digit_of_char c ≠ None.
Proof.
  intros Hu. destruct u; [done|..]; cbn [digits]; rewrite append_cons;
    eexists _, _; (split; [reflexivity|]); split; done.
Qed.

Lemma parse_int_number (n : Z) (rest : string) :
  closes_value rest = true →
  parse_int (number_to_string n +:+ rest) = Some (n, rest).
Proof.
  intros Hrest. unfold number_to_string.
  pose proof (to_uint_normal (Z.abs_N n)) as Hnormal.
  assert (Hvalue : Z.of_N (N.of_uint (N.to_uint (Z.abs_N n))) = Z.abs n).
  { rewrite DecimalN.Unsigned.of_to. apply N2Z.inj_abs_N. }
  destruct (n <? 0) eqn:Hsign.
  - rewrite append_cons. unfold parse_int.
    change ("-" =? "-")%char with true. cbv iota.
    rewrite take_digits_digits, closes_value_not_number by done.
    rewrite Hvalue, normal_token by done.
    apply Z.ltb_lt in Hsign. do 2 f_equal. lia.
  - destruct (digits_not_minus (N.to_uint (Z.abs_N n)) rest)
      as (c & r & Heq & Hminus & _).
    { intros Hnil. rewrite Hnil in Hnormal. discriminate. }
    unfold parse_int. rewrite Heq, Hminus, <- Heq.
    rewrite take_digits_digits, closes_value_not_number by done.
    rewrite Hvalue, normal_token by done.
    apply Z.ltb_ge in Hsign. do 2 f_equal. lia.
Qed.

(** *** Reading back a value *)

Lemma starts_value_facts (c : ascii) :
  starts_value c = true →
  is_json_space c = false ∧ (c =? "]")%char = false ∧ (c =? "}")%char = false.
Proof. each_char c; first [discriminate | done]. Qed.

Lemma digit_starts_value (c : ascii) :
  digit_of_char c ≠ None → starts_value c = true.
Proof. each_char c; first [done | reflexivity]. Qed.

Lemma number_head (n : Z) (rest : string) :
  ∃ c r, number_to_string n +:+ rest = String c r
         ∧ ((c =? "-")%char = true ∨ digit_of_char c ≠ None).
Proof.
  unfold number_to_string. destruct (n <? 0).
  - rewrite append_cons. eexists _, _. split; [reflexivity|]. by left.
  - destruct (digits_not_minus (N.to_uint (Z.abs_N n)) rest)
      as (c & r & Heq & _ & Hdigit).
    { intros Hnil. pose proof (to_uint_normal (Z.abs_N n)) as Hnormal.
      rewrite Hnil in Hnormal. discriminate. }
    exists c, r. split; [done|]. by right.
Qed.

Lemma stringify_head (v : json) (rest : string) :
  ∃ c r, JSON_stringify v +:+ rest = String c r ∧ starts_value c = true.
Proof.
  destruct v as [|[]|n|s|l|l]; try (eexists _, _; split; reflexivity).
  cbn [JSON_stringify]. destruct (number_head n rest) as (c & r & Heq & Hc).
  exists c, r. split; [done|]. destruct Hc as [Hc|Hc].
  - apply Ascii.eqb_eq in Hc as ->. reflexivity.
  - by apply digit_starts_value.
Qed.

Lemma skip_ws_start (c : ascii) (r : string) :
  is_json_space c = false → skip_ws (String c r) = String c r.
Proof. intros H. cbn [skip_ws]. by rewrite H. Qed.

(** The reader, one step at a time. *)
Lemma parse_value_string (fuel : nat) (r : string) :
  parse_value (S fuel) (String dquote r)
  = '(str, rest) ← parse_chars r; Some (JStr str, rest).
Proof. reflexivity. Qed.

Lemma parse_value_number (fuel : nat) (c : ascii) (r : string) :
  (c =? "-")%char = true ∨ digit_of_char c ≠ None →
  parse_value (S fuel) (String c r)
  = '(n, rest) ← parse_int (String c r); Some (JNum n, rest).
Proof.
  intros [Hc|Hc].
  - apply Ascii.eqb_eq in Hc as ->. reflexivity.
  - each_char c; first [done | reflexivity].
Qed.

Lemma parse_value_array (fuel : nat) (c : ascii) (r : string) :
  starts_value c = true →
  parse_value (S fuel) (String "[" (String c r))
  = '(l, rest) ← parse_elements fuel (String c r); Some (JArr l, rest).
Proof.
  intros Hc. apply starts_value_facts in Hc as (Hspace & Hclose & _).
  cbn [parse_value].
  change (skip_ws (String "[" (String c r))) with (String "[" (String c r)).
  change ("[" =? dquote)%char with false.
  change ("[" =? "[")%char with true. cbv iota.
  by rewrite skip_ws_start, Hclose.
Qed.

Lemma parse_value_object (fuel : nat) (r : string) :
  parse_value (S fuel) (String "{" (String dquote r))
  = '(l, rest) ← parse_members fuel (String dquote r);
    Some (JObj (object_of l), rest).
Proof. reflexivity. Qed.

Lemma parse_elements_step (fuel : nat) (s : string) :
  parse_elements (S fuel) s
  = '(v, r) ← parse_value fuel s;
    match skip_ws r with
    | String c r' =>
        if (c =? ",")%char then
          '(l, rest) ← parse_elements fuel r'; Some (v :: l, rest)
        else if (c =? "]")%char then Some ([v], r')
        else None
    | EmptyString => None
    end.
Proof. reflexivity. Qed.

Lemma parse_members_step (fuel : nat) (r : string) :
  parse_members (S fuel) (String dquote r)
  = '(k, r1) ← parse_chars r;
    match skip_ws r1 with
    | String c1 r2 =>
        if (c1 =? ":")%char then
          '(v, r3) ← parse_value fuel r2;
          match skip_ws r3 with
          | String c3 r4 =>
              if (c3 =? ",")%char then
                '(l, rest) ← parse_members fuel r4;
                Some ((k, v) :: l, rest)
              else if (c3 =? "}")%char then Some ([(k, v)], r4)
              else None
          | EmptyString => None
          end
        else None
    | EmptyString => None
    end.
Proof. reflexivity. Qed.

Lemma join_close_last (close : ascii) (p rest : string) :
  join_close close [p] +:+ rest = p +:+ String close rest.
Proof. cbn [join_close]. by rewrite append_assoc. Qed.

Lemma join_close_more (close : ascii) (p q : string) (ps : list string)
      (rest : string) :
  join_close close (p :: q :: ps) +:+ rest
  = p +:+ String "," (join_close close (q :: ps) +:+ rest).
Proof. cbn [join_close]. by rewrite append_assoc. Qed.

(** Setting the members of an object with distinct keys, in order, builds
    that object. *)
Lemma obj_set_new (k : string) (v : json) (o : list (string * json)) :
  k ∉ map fst o → obj_set k v o = o ++ [(k, v)].
Proof.
  induction o as [|[k' v'] o IH]; intros Hk; [done|].
  cbn [obj_set]. cbn in Hk. rewrite not_elem_of_cons in Hk.
  destruct Hk as [Hne Hk]. rewrite decide_False by done.
  by rewrite IH.
Qed.

Lemma object_of_from (l o : list (string * json)) :
  distinct (map fst l) = true →
  (∀ k, k ∈ map fst l → k ∉ map fst o) →
  foldl (λ o kv, obj_set (fst kv) (snd kv) o) o l = o ++ l.
Proof.
  revert o. induction l as [|[k v] l IH]; intros o Hdistinct Hfresh.
  - by rewrite app_nil_r.
  - cbn in Hdistinct. apply andb_prop in Hdistinct as [Hk Hl].
    apply negb_true_iff, bool_decide_eq_false in Hk.
    cbn [foldl fst snd]. rewrite obj_set_new.
    + rewrite IH; [by rewrite <- app_assoc | done |].
      intros k' Hk'. rewrite map_app, elem_of_app. cbn.
      intros [Hin|Hin%list_elem_of_singleton].
      * eapply Hfresh; [|done]. cbn. by right.
      * by subst.
    + apply Hfresh. cbn. by left.
Qed.

Lemma object_of_distinct (l : list (string * json)) :
  distinct (map fst l) = true → object_of l = l.
Proof.
  intros H. unfold object_of. rewrite object_of_from; [done..|].
  intros k _. cbn. apply not_elem_of_nil.
Qed.

Lemma need_elements_cons (v : json) (l : list json) :
  need_elements (v :: l) = S (Nat.max (need v) (need_elements l)).
Proof. reflexivity. Qed.

Lemma need_members_cons (kv : string * json) (l : list (string * json)) :
  need_members (kv :: l) = S (Nat.max (need (snd kv)) (need_members l)).
Proof. reflexivity. Qed.

Lemma need_array (l : list json) : need (JArr l) = S (need_elements l).
Proof. reflexivity. Qed.

Lemma need_object (l : list (string * json)) :
  need (JObj l) = S (need_members l).
Proof. reflexivity. Qed.

Lemma need_pos (v : json) : (1 ≤ need v)%nat.
Proof. destruct v; cbn; lia. Qed.

Lemma join_map_last {A} (close : ascii) (f : A → string) (x : A)
      (rest : string) :
  join_close close (map f [x]) +:+ rest = f x +:+ String close rest.
Proof. apply join_close_last. Qed.

Lemma join_map_more {A} (close : ascii) (f : A → string) (x y : A)
      (l : list A) (rest : string) :
  join_close close (map f (x :: y :: l)) +:+ rest
  = f x +:+ String "," (join_close close (map f (y :: l)) +:+ rest).
Proof. apply join_close_more. Qed.

Lemma elements_head (v : json) (l : list json) (rest : string) :
  ∃ c r, join_close "]" (map JSON_stringify (v :: l)) +:+ rest = String c r
         ∧ starts_value c = true.
Proof.
  destruct l as [|v' l]; [rewrite join_map_last | rewrite join_map_more];
    apply stringify_head.
Qed.

Lemma member_then (k : string) (v : json) (text : string) :
  member_text JSON_stringify (k, v) +:+ text
  = String dquote (quote_body k +:+ String ":" (JSON_stringify v +:+ text)).
Proof.
  unfold member_text, quote. cbn [fst snd].
  by rewrite append_assoc, !append_cons.
Qed.

Lemma members_head (kv : string * json) (l : list (string * json))
      (rest : string) :
  ∃ r, join_close "}" (map (member_text JSON_stringify) (kv :: l)) +:+ rest
       = String dquote r.
Proof.
  destruct kv as [k v].
  destruct l as [|kv' l]; [rewrite join_map_last | rewrite join_map_more];
    rewrite member_then; eexists; reflexivity.
Qed.

(** With enough fuel the reader returns the value whose text it is given,
    and the rest of the input untouched. *)
Lemma parse_stringify_fuel (fuel : nat) :
  (∀ v rest,
      json_wf v = true → (need v ≤ fuel)%nat → closes_value rest = true →
      parse_value fuel (JSON_stringify v +:+ rest) = Some (v, rest))
  ∧ (∀ l rest,
        l ≠ [] → forallb json_wf l = true → (need_elements l ≤ fuel)%nat →
        parse_elements fuel (join_close "]" (map JSON_stringify l) +:+ rest)
        = Some (l, rest))
  ∧ (∀ l rest,
        l ≠ [] → forallb (λ kv, json_wf (snd kv)) l = true →
        (need_members l ≤ fuel)%nat →
        parse_members fuel
          (join_close "}" (map (member_text JSON_stringify) l) +:+ rest)
        = Some (l, rest)).
Proof.
  induction fuel as [|fuel (IHv & IHe & IHm)].
  { split; [|split].
    - intros v rest _ Hneed. pose proof (need_pos v). lia.
    - intros [|v l] rest Hl _ Hneed; [done|].
      rewrite need_elements_cons in Hneed. lia.
    - intros [|kv l] rest Hl _ Hneed; [done|].
      rewrite need_members_cons in Hneed. lia. }
  split; [|split].
  - intros v rest Hwf Hneed Hrest.
    destruct v as [|[]|n|s|l|l]; try reflexivity.
    + cbn [JSON_stringify].
      destruct (number_head n rest) as (c & r & Heq & Hc).
      rewrite Heq, parse_value_number, <- Heq by done.
      by rewrite parse_int_number.
    + cbn [JSON_stringify]. unfold quote. rewrite append_cons.
      rewrite parse_value_string, parse_chars_quote_body. reflexivity.
    + cbn [JSON_stringify]. rewrite append_cons.
      destruct l as [|v l]; [reflexivity|].
      rewrite need_array in Hneed.
      destruct (elements_head v l rest) as (c & r & Heq & Hc).
      rewrite Heq, parse_value_array, <- Heq by done.
      rewrite IHe; [reflexivity | done | done | lia].
    + cbn [JSON_stringify]. rewrite append_cons.
      destruct l as [|kv l]; [reflexivity|].
      rewrite need_object in Hneed.
      cbn [json_wf] in Hwf. apply andb_prop in Hwf as [Hkeys Hwf].
      destruct (members_head kv l rest) as (r & Heq).
      rewrite Heq, parse_value_object, <- Heq.
      rewrite IHm; [|done | done | lia].
      change (Some (JObj (object_of (kv :: l)), rest)
              = Some (JObj (kv :: l), rest)).
      by rewrite object_of_distinct.
  - intros [|v l] rest Hne Hwf Hneed; [done|].
    rewrite need_elements_cons in Hneed.
    cbn [forallb] in Hwf. apply andb_prop in Hwf as [Hv Hl].
    rewrite parse_elements_step.
    destruct l as [|v' l].
    + rewrite join_map_last, IHv; [reflexivity | done | lia | done].
    + rewrite join_map_more.
      remember (join_close "]" (map JSON_stringify (v' :: l)) +:+ rest)
        as text eqn:Htext.
      rewrite IHv; [|done | lia | done]. cbn. subst text.
      rewrite IHe; [reflexivity | done | done | lia].
  - intros [|[k v] l] rest Hne Hwf Hneed; [done|].
    rewrite need_members_cons in Hneed. cbn [snd] in Hneed.
    cbn [forallb snd] in Hwf. apply andb_prop in Hwf as [Hv Hl].
    destruct l as [|kv' l].
    + rewrite join_map_last, member_then, parse_members_step.
      rewrite parse_chars_quote_body.
      remember (JSON_stringify v +:+ String "}" rest) as text eqn:Htext.
      cbn. subst text.
      rewrite IHv; [reflexivity | done | lia | done].
    + rewrite join_map_more, member_then, parse_members_step.
      rewrite parse_chars_quote_body.
      remember (join_close "}" (map (member_text JSON_stringify) (kv' :: l))
                +:+ rest) as more eqn:Hmore.
      remember (JSON_stringify v +:+ String "," more) as text eqn:Htext.
      cbn. subst text.
      rewrite IHv; [|done | lia | by subst more]. cbn. subst more.
      rewrite IHm; [reflexivity | done | done | lia].
Qed.

(** *** The fuel of [JSON_parse] is enough for every text *)

Lemma skip_ws_length (s : string) :
  (String.length (skip_ws s) ≤ String.length s)%nat.
Proof.
  induction s as [|c s IH]; [done|].
  cbn [skip_ws]. destruct (is_json_space c); cbn [String.length]; lia.
Qed.

Lemma bind_pair_some {A B C} (m : option (A * B)) (k : A → B → option C)
      (z : C) :
  ('(a, b) ← m; k a b) = Some z →
  ∃ a b, m = Some (a, b) ∧ k a b = Some z.
Proof. destruct m as [[a b]|]; [|done]. intros H. by exists a, b. Qed.

Lemma parse_chars_length_le (n : nat) :
  ∀ s body rest,
    (String.length s ≤ n)%nat →
    parse_chars s = Some (body, rest) →
    (String.length rest < String.length s)%nat.
Proof.
  induction n as [|n IH]; intros [|c r] body rest Hn Hparse;
    try discriminate; cbn [String.length] in *; [lia|].
  cbn [parse_chars] in Hparse.
  destruct (c =? dquote)%char.
  { injection Hparse as <- <-. lia. }
  destruct (c =? bslash)%char.
  - destruct r as [|e r1]; [done|]. cbn [String.length] in *.
    destruct (e =? "u")%char.
    + destruct r1 as [|h1 [|h2 [|h3 [|h4 r2]]]]; try done.
      cbn [String.length] in *.
      destruct (hex4 h1 h2 h3 h4); [|done].
      apply bind_pair_some in Hparse as (b & r' & Hrec & Hret).
      injection Hret as <- <-. apply IH in Hrec; lia.
    + destruct (unescape e); [|done].
      apply bind_pair_some in Hparse as (b & r' & Hrec & Hret).
      injection Hret as <- <-. apply IH in Hrec; lia.
  - destruct (char_code c <? 32)%N; [done|].
    apply bind_pair_some in Hparse as (b & r' & Hrec & Hret).
    injection Hret as <- <-. apply IH in Hrec; lia.
Qed.

Lemma parse_chars_length (s body rest : string) :
  parse_chars s = Some (body, rest) →
  (String.length rest < String.length s)%nat.
Proof. by apply (parse_chars_length_le (String.length s)). Qed.

Lemma take_digits_length (s : string) :
  (String.length (snd (take_digits s)) ≤ String.length s)%nat
  ∧ (fst (take_digits s) ≠ Decimal.Nil →
     String.length (snd (take_digits s)) < String.length s)%nat.
Proof.
  induction s as [|c s [IH _]]; [done|].
  cbn [take_digits]. destruct (digit_of_char c) as [d|]; [|done].
  destruct (take_digits s) as [u rest]. cbn [fst snd String.length] in *.
  split; [lia|]. intros _. lia.
Qed.

Lemma parse_int_length (s : string) (n : Z) (rest : string) :
  parse_int s = Some (n, rest) →
  (String.length rest < String.length s)%nat.
Proof.
  unfold parse_int.
  set (start := match s with
                | EmptyString => (false, s)
                | String c r => if (c =? "-")%char then (true, r) else (false, s)
                end).
  assert (Hstart : (String.length (snd start) ≤ String.length s)%nat).
  { subst start. destruct s as [|c r]; [done|].
    destruct (c =? "-")%char; cbn [snd String.length]; lia. }
  destruct start as [negative s1]. cbn [snd] in Hstart.
  pose proof (take_digits_length s1) as [_ Hdigits].
  destruct (take_digits s1) as [u after]. cbn [fst snd] in Hdigits.
  destruct (continues_number after); [done|].
  intros Hparse.
  assert (Hu : u ≠ Decimal.Nil) by (by destruct u).
  assert (rest = after) as ->.
  { destruct u as [|[]| | | | | | | | |]; try done;
      by injection Hparse as _ <-. }
  specialize (Hdigits Hu). lia.
Qed.

Lemma strip_prefix_length (p s rest : string) :
  strip_prefix p s = Some rest →
  (String.length rest ≤ String.length s)%nat.
Proof.
  revert s. induction p as [|a p IH]; intros s Hs.
  - injection Hs as <-. lia.
  - destruct s as [|b s]; [done|]. cbn [strip_prefix] in Hs.
    destruct (a =? b)%char; [|done]. apply IH in Hs.
    cbn [String.length]. lia.
Qed.

Lemma parse_value_step (fuel : nat) (s : string) :
  parse_value (S fuel) s
  = match skip_ws s with
    | EmptyString => None
    | String c r =>
        if (c =? dquote)%char then
          '(str, rest) ← parse_chars r; Some (JStr str, rest)
        else if (c =? "[")%char then
          match skip_ws r with
          | String c' r' =>
              if (c' =? "]")%char then Some (JArr [], r')
              else '(l, rest) ← parse_elements fuel r; Some (JArr l, rest)
          | EmptyString => None
          end
        else if (c =? "{")%char then
          match skip_ws r with
          | String c' r' =>
              if (c' =? "}")%char then Some (JObj [], r')
              else '(l, rest) ← parse_members fuel r;
                   Some (JObj (object_of l), rest)
          | EmptyString => None
          end
        else if (c =? "n")%char then
          rest ← strip_prefix "ull" r; Some (JNull, rest)
        else if (c =? "t")%char then
          rest ← strip_prefix "rue" r; Some (JBool true, rest)
        else if (c =? "f")%char then
          rest ← strip_prefix "alse" r; Some (JBool false, rest)
        else
          '(n, rest) ← parse_int (String c r); Some (JNum n, rest)
    end.
Proof. reflexivity. Qed.

Lemma parse_members_start (fuel : nat) (s : string) :
  parse_members (S fuel) s
  = match skip_ws s with
    | String c r =>
        if (c =? dquote)%char then parse_members (S fuel) (String dquote r)
        else None
    | EmptyString => None
    end.
Proof.
  cbn [parse_members]. destruct (skip_ws s) as [|c r]; [done|].
  destruct (c =? dquote)%char eqn:Hc; [|done].
  apply Ascii.eqb_eq in Hc as ->. reflexivity.
Qed.

Ltac use_tests :=
  repeat match goal with
         | H : (_ =? _)%char = _ |- _ => rewrite H
         end.

Ltac bind_step := cbn [mbind option_bind].

(** A successful reading consumes input, and succeeds again with any fuel
    of at least twice the number of characters consumed. *)
Lemma parse_fuel_bound (fuel : nat) :
  (∀ s v rest,
      parse_value fuel s = Some (v, rest) →
      (String.length rest < String.length s)%nat
      ∧ ∀ fuel',
          (2 * (String.length s - String.length rest) ≤ fuel' + 1)%nat →
          parse_value fuel' s = Some (v, rest))
  ∧ (∀ s l rest,
        parse_elements fuel s = Some (l, rest) →
        (String.length rest + 2 ≤ String.length s)%nat
        ∧ ∀ fuel',
            (2 * (String.length s - String.length rest) ≤ fuel' + 2)%nat →
            parse_elements fuel' s = Some (l, rest))
  ∧ (∀ s l rest,
        parse_members fuel s = Some (l, rest) →
        (String.length rest + 2 ≤ String.length s)%nat
        ∧ ∀ fuel',
            (2 * (String.length s - String.length rest) ≤ fuel' + 2)%nat →
            parse_members fuel' s = Some (l, rest)).
Proof.
  induction fuel as [|fuel (IHv & IHe & IHm)]; [by repeat split|].
  split; [|split].
  - intros s v rest Hparse. rewrite parse_value_step in Hparse.
    pose proof (skip_ws_length s) as Hskip.
    destruct (skip_ws s) as [|c r] eqn:Hs; [done|].
    cbn [String.length] in Hskip.
    destruct (c =? dquote)%char eqn:Hc1.
    { apply bind_pair_some in Hparse as (str & rest' & Hchars & Hret).
      injection Hret as <- <-. apply parse_chars_length in Hchars as Hlen.
      split; [lia|]. intros [|fuel'] Hfuel; [lia|].
      rewrite parse_value_step, Hs. use_tests. by rewrite Hchars. }
    destruct (c =? "[")%char eqn:Hc2.
    { pose proof (skip_ws_length r) as Hskip'.
      destruct (skip_ws r) as [|c' r'] eqn:Hr; [done|].
      cbn [String.length] in Hskip'.
      destruct (c' =? "]")%char eqn:Hc'.
      - injection Hparse as <- <-.
        split; [lia|]. intros [|fuel'] Hfuel; [lia|].
        rewrite parse_value_step, Hs. use_tests. rewrite Hr. by use_tests.
      - apply bind_pair_some in Hparse as (l & rest' & Hrec & Hret).
        injection Hret as <- <-. apply IHe in Hrec as [Hlen Hrec].
        split; [lia|]. intros [|fuel'] Hfuel; [lia|].
        rewrite parse_value_step, Hs. use_tests. rewrite Hr. use_tests.
        rewrite Hrec by lia. reflexivity. }
    destruct (c =? "{")%char eqn:Hc3.
    { pose proof (skip_ws_length r) as Hskip'.
      destruct (skip_ws r) as [|c' r'] eqn:Hr; [done|].
      cbn [String.length] in Hskip'.
      destruct (c' =? "}")%char eqn:Hc'.
      - injection Hparse as <- <-.
        split; [lia|]. intros [|fuel'] Hfuel; [lia|].
        rewrite parse_value_step, Hs. use_tests. rewrite Hr. by use_tests.
      - apply bind_pair_some in Hparse as (l & rest' & Hrec & Hret).
        injection Hret as <- <-. apply IHm in Hrec as [Hlen Hrec].
        split; [lia|]. intros [|fuel'] Hfuel; [lia|].
        rewrite parse_value_step, Hs. use_tests. rewrite Hr. use_tests.
        rewrite Hrec by lia. reflexivity. }
    destruct (c =? "n")%char eqn:Hc4.
    { destruct (strip_prefix "ull" r) as [rest'|] eqn:Hword; [|done].
      injection Hparse as <- <-. apply strip_prefix_length in Hword as Hlen.
      split; [lia|]. intros [|fuel'] Hfuel; [lia|].
      rewrite parse_value_step, Hs. use_tests. by rewrite Hword. }
    destruct (c =? "t")%char eqn:Hc5.
    { destruct (strip_prefix "rue" r) as [rest'|] eqn:Hword; [|done].
      injection Hparse as <- <-. apply strip_prefix_length in Hword as Hlen.
      split; [lia|]. intros [|fuel'] Hfuel; [lia|].
      rewrite parse_value_step, Hs. use_tests. by rewrite Hword. }
    destruct (c =? "f")%char eqn:Hc6.
    { destruct (strip_prefix "alse" r) as [rest'|] eqn:Hword; [|done].
      injection Hparse as <- <-. apply strip_prefix_length in Hword as Hlen.
      split; [lia|]. intros [|fuel'] Hfuel; [lia|].
      rewrite parse_value_step, Hs. use_tests. by rewrite Hword. }
    apply bind_pair_some in Hparse as (n & rest' & Hint & Hret).
    injection Hret as <- <-. apply parse_int_length in Hint as Hlen.
    cbn [String.length] in Hlen.
    split; [lia|]. intros [|fuel'] Hfuel; [lia|].
    rewrite parse_value_step, Hs. use_tests. by rewrite Hint.
  - intros s l rest Hparse. rewrite parse_elements_step in Hparse.
    apply bind_pair_some in Hparse as (v & r & Hvalue & Hnext).
    apply IHv in Hvalue as [Hlen Hvalue].
    pose proof (skip_ws_length r) as Hskip.
    destruct (skip_ws r) as [|c r'] eqn:Hr; [done|].
    cbn [String.length] in Hskip.
    destruct (c =? ",")%char eqn:Hc1.
    { apply bind_pair_some in Hnext as (l' & rest' & Hrec & Hret).
      injection Hret as <- <-. apply IHe in Hrec as [Hlen' Hrec].
      split; [lia|]. intros [|fuel'] Hfuel; [lia|].
      rewrite parse_elements_step, Hvalue by lia. bind_step.
      rewrite Hr. use_tests. rewrite Hrec by lia. reflexivity. }
    destruct (c =? "]")%char eqn:Hc2; [|done].
    injection Hnext as <- <-.
    split; [lia|]. intros [|fuel'] Hfuel; [lia|].
    rewrite parse_elements_step, Hvalue by lia. bind_step.
    rewrite Hr. by use_tests.
  - intros s l rest Hparse. rewrite parse_members_start in Hparse.
    pose proof (skip_ws_length s) as Hskip.
    destruct (skip_ws s) as [|c r] eqn:Hs; [done|].
    cbn [String.length] in Hskip.
    destruct (c =? dquote)%char eqn:Hc; [|done].
    rewrite parse_members_step in Hparse.
    apply bind_pair_some in Hparse as (k & r1 & Hkey & Hnext).
    apply parse_chars_length in Hkey as Hlen1.
    pose proof (skip_ws_length r1) as Hskip1.
    destruct (skip_ws r1) as [|c1 r2] eqn:Hr1; [done|].
    cbn [String.length] in Hskip1.
    destruct (c1 =? ":")%char eqn:Hc1; [|done].
    apply bind_pair_some in Hnext as (v & r3 & Hvalue & Hnext).
    apply IHv in Hvalue as [Hlen2 Hvalue].
    pose proof (skip_ws_length r3) as Hskip3.
    destruct (skip_ws r3) as [|c3 r4] eqn:Hr3; [done|].
    cbn [String.length] in Hskip3.
    destruct (c3 =? ",")%char eqn:Hc3.
    { apply bind_pair_some in Hnext as (l' & rest' & Hrec & Hret).
      injection Hret as <- <-. apply IHm in Hrec as [Hlen' Hrec].
      split; [lia|]. intros [|fuel'] Hfuel; [lia|].
      rewrite parse_members_start, Hs, Hc, parse_members_step, Hkey.
      bind_step. rewrite Hr1, Hc1, Hvalue by lia. bind_step.
      rewrite Hr3, Hc3, Hrec by lia. reflexivity. }
    destruct (c3 =? "}")%char eqn:Hc4; [|done].
    injection Hnext as <- <-.
    split; [lia|]. intros [|fuel'] Hfuel; [lia|].
    rewrite parse_members_start, Hs, Hc, parse_members_step, Hkey.
    bind_step. rewrite Hr1, Hc1, Hvalue by lia. bind_step.
    by rewrite Hr3, Hc3, Hc4.
Qed.

(** Whatever fuel reads a value from a text, the fuel of [JSON_parse]
    reads it too: [JSON_parse] fails only on a text that has no reading. *)
Lemma JSON_parse_any_fuel (fuel : nat) (text : string) (v : json)
      (rest : string) :
  parse_value fuel text = Some (v, rest) →
  skip_ws rest = EmptyString →
  JSON_parse text = Some v.
Proof.
  intros Hparse Hrest. unfold JSON_parse.
  destruct (parse_fuel_bound fuel) as (Hvalue & _).
  apply Hvalue in Hparse as [Hlen Hparse].
  rewrite Hparse by lia. bind_step. by rewrite Hrest.
Qed.

Lemma JSON_parse_none (text : string) :
  JSON_parse text = None ↔
  ¬ ∃ fuel v rest,
      parse_value fuel text = Some (v, rest) ∧ skip_ws rest = EmptyString.
Proof.
  split.
  - intros Hnone (fuel & v & rest & Hparse & Hrest).
    by rewrite (JSON_parse_any_fuel fuel text v rest) in Hnone.
  - intros Hno. unfold JSON_parse.
    destruct (parse_value _ text) as [[v rest]|] eqn:Hparse; [|done].
    bind_step. destruct (skip_ws rest) eqn:Hrest; [|done].
    destruct Hno. eauto.
Qed.

(** Round trip of the codec: reading the text written for a value gives
    the value back. *)
Lemma JSON_parse_stringify (v : json) :
  json_wf v = true → JSON_parse (JSON_stringify v) = Some v.
Proof.
  intros Hwf. destruct (parse_stringify_fuel (need v)) as (Hvalue & _).
  specialize (Hvalue v EmptyString Hwf).
  rewrite append_empty_r in Hvalue.
  apply (JSON_parse_any_fuel (need v) _ _ EmptyString); [|done].
  by apply Hvalue.
Qed.

(** *** [save] and [load] *)

Lemma getItem_text_save (k : string) (v : json) (st : storage) :
  getItem_text (save k v st) k = JSON_stringify v.
Proof. unfold getItem_text, save. by rewrite lookup_insert_eq. Qed.






(** In every other case [load] returns the stored value. *)
Lemma load_stored (k text : string) (v fallback : json) (st : storage) :
  st !! k = Some text → JSON_parse text = Some v → v ≠ JNull →
  load k fallback st = v.
Proof.
  intros Hk Hparse Hnull. unfold load, getItem_text.
  rewrite Hk. cbn -[JSON_parse]. rewrite Hparse. by destruct v.
Qed.

Example parse_examples :
  JSON_parse "null" = Some JNull
  ∧ JSON_parse " [1, -20 , true] " = Some (JArr [JNum 1; JNum (-20); JBool true])
  ∧ JSON_parse "undefined" = None
  ∧ JSON_parse "[1,]" = None
  ∧ JSON_parse "01" = None
  ∧ JSON_parse EmptyString = None.
Proof. repeat split. Qed.

Example stringify_stored_cart :
  JSON_parse (JSON_stringify stored_cart) = Some stored_cart.
Proof. reflexivity. Qed.

(** ** Cart store: the other operations and how they compose *)

Lemma addToCart_absent (p : product) (oq : option Z) (cart : list item) :
  Forall (λ i, Item.id i ≠ Product.id p) cart →
  addToCart p oq cart
  = cart ++ [Item.mk (Product.id p) (Product.name p) (Product.price p)
                     (default 1 oq) (first_image p)].
Proof.
  intros Hnone. unfold addToCart.
  by rewrite (proj2 (list_find_None _ cart) Hnone).
Qed.

Lemma addToCart_present (p : product) (oq : option Z) (cart : list item) :
  Exists (λ i, Item.id i = Product.id p) cart →
  addToCart p oq cart
  = map (λ i, if decide (Item.id i = Product.id p)
              then Item.with_qty i (Item.qty i + default 1 oq) else i) cart.
Proof.
  intros Hsome. unfold addToCart.
  destruct (list_find _ cart) as [[n i]|] eqn:Hfind; [done|].
  apply list_find_None in Hfind. apply Exists_exists in Hsome as (i & Hi & Hid).
  rewrite Forall_forall in Hfind. by apply Hfind in Hi.
Qed.

Lemma cart_ids_bump (pid : string) (f : item → Z) (cart : list item) :
  cart_ids (map (λ i, if decide (Item.id i = pid)
                      then Item.with_qty i (f i) else i) cart)
  = cart_ids cart.
Proof.
  unfold cart_ids. induction cart as [|i cart IH]; [done|].
  cbn [map fmap list_fmap] in *. rewrite IH. by destruct (decide _).
Qed.

Lemma cart_ids_updateQty (id : string) (q : Z) (cart : list item) :
  cart_ids (updateQty id q cart) = cart_ids cart.
Proof. apply (cart_ids_bump id (λ _, Z.max 1 q)). Qed.

Lemma cart_ids_removeFromCart (id : string) (cart : list item) :
  cart_ids (removeFromCart id cart) = filter (λ k, k ≠ id) (cart_ids cart).
Proof.
  unfold cart_ids, removeFromCart. induction cart as [|i cart IH]; [done|].
  rewrite filter_cons, fmap_cons, filter_cons.
  destruct (decide (Item.id i ≠ id)); [rewrite fmap_cons|]; by rewrite IH.
Qed.

Lemma no_line_iff_not_id (pid : string) (cart : list item) :
  Forall (λ i, Item.id i ≠ pid) cart ↔ pid ∉ cart_ids cart.
Proof.
  unfold cart_ids. rewrite Forall_forall, list_elem_of_fmap. split.
  - intros Hall (i & -> & Hi). by apply (Hall i).
  - intros Hnot i Hi Hid. apply Hnot. by exists i.
Qed.

Lemma cart_ids_addToCart (p : product) (oq : option Z) (cart : list item) :
  cart_ids (addToCart p oq cart)
  = if decide (Product.id p ∈ cart_ids cart) then cart_ids cart
    else cart_ids cart ++ [Product.id p].
Proof.
  destruct (decide (Product.id p ∈ cart_ids cart)) as [Hin|Hin].
  - rewrite addToCart_present.
    + apply (cart_ids_bump _ (λ i, Item.qty i + default 1 oq)).
    + apply Exists_exists. unfold cart_ids in Hin.
      apply list_elem_of_fmap in Hin as (i & Hid & Hi). by exists i.
  - rewrite addToCart_absent by by apply no_line_iff_not_id.
    unfold cart_ids. by rewrite fmap_app.
Qed.

Lemma qty_bump (pid : string) (f : item → Z) (cart : list item) :
  Forall (λ i, 1 ≤ Item.qty i) cart →
  (∀ i, i ∈ cart → 1 ≤ f i) →
  Forall (λ i, 1 ≤ Item.qty i)
         (map (λ i, if decide (Item.id i = pid)
                    then Item.with_qty i (f i) else i) cart).
Proof.
  intros Hcart Hf. apply Forall_forall. intros j Hj.
  apply list_elem_of_fmap in Hj as (i & -> & Hi).
  rewrite Forall_forall in Hcart.
  destruct (decide _); cbn; [by apply Hf | by apply Hcart].
Qed.

(** One action keeps the two invariants of the cart. *)
Lemma cart_step_invariant (cart : list item) (a : cart_action) :
  NoDup (cart_ids cart) →
  Forall (λ i, 1 ≤ Item.qty i) cart →
  adds_positive a →
  NoDup (cart_ids (cart_step cart a))
  ∧ Forall (λ i, 1 ≤ Item.qty i) (cart_step cart a).
Proof.
  intros Hids Hqty Ha. destruct a as [p oq|id|id q|]; cbn [cart_step].
  - split.
    + rewrite cart_ids_addToCart. destruct (decide _) as [Hin|Hin]; [done|].
      apply NoDup_app. split; [done|]. split; [|apply NoDup_singleton].
      intros k Hk ->%list_elem_of_singleton. done.
    + destruct (decide (Product.id p ∈ cart_ids cart)) as [Hin|Hin].
      * rewrite addToCart_present.
        -- apply qty_bump; [done|]. intros i Hi.
           rewrite Forall_forall in Hqty. specialize (Hqty i Hi).
           cbn in Ha. lia.
        -- apply Exists_exists. unfold cart_ids in Hin.
           apply list_elem_of_fmap in Hin as (i & Hid & Hi). by exists i.
      * rewrite addToCart_absent by by apply no_line_iff_not_id.
        apply Forall_app. split; [done|]. by repeat constructor.
  - split.
    + rewrite cart_ids_removeFromCart. by apply NoDup_filter.
    + unfold removeFromCart. apply Forall_forall. intros i Hi.
      apply list_elem_of_filter in Hi as [_ Hi].
      rewrite Forall_forall in Hqty. by apply Hqty.
  - split.
    + by rewrite cart_ids_updateQty.
    + apply qty_bump; [done|]. intros i _. lia.
  - split; constructor.
Qed.

(** X1. Every cart a session reaches from a cart with one line per
    identifier and positive quantities again has one line per identifier
    and positive quantities; the empty cart is such a cart. *)
Theorem cart_session_invariant (actions : list cart_action)
        (cart : list item) :
  NoDup (cart_ids cart) →
  Forall (λ i, 1 ≤ Item.qty i) cart →
  Forall adds_positive actions →
  NoDup (cart_ids (cart_session actions cart))
  ∧ Forall (λ i, 1 ≤ Item.qty i) (cart_session actions cart).
Proof.
  intros Hids Hqty Hactions. revert cart Hids Hqty.
  induction Hactions as [|a actions Ha _ IH]; intros cart Hids Hqty; [done|].
  cbn [cart_session foldl].
  destruct (cart_step_invariant cart a Hids Hqty Ha) as [Hids' Hqty'].
  by apply IH.
Qed.

(** X2. [removeFromCart] with an identifier that no line carries returns
    the cart unchanged. *)
Theorem removeFromCart_absent (id : string) (cart : list item) :
  Forall (λ i, Item.id i ≠ id) cart →
  removeFromCart id cart = cart.
Proof.
  unfold removeFromCart. induction 1 as [|i cart Hi _ IH]; [done|].
  rewrite filter_cons, decide_True by done. by rewrite IH.
Qed.

Lemma removeFromCart_absent_witness :
  removeFromCart "p1" [mug_line] = [mug_line].
Proof.
  apply (removeFromCart_absent "p1" [mug_line]).
  repeat constructor. discriminate.
Defined.

Lemma filter_other_id (id : string) (cart : list item) :
  Forall (λ i, Item.id i ≠ id) cart →
  filter (λ i, Item.id i ≠ id) cart = cart.
Proof.
  induction 1 as [|i cart Hi _ IH]; [done|].
  rewrite filter_cons, decide_True by done. by rewrite IH.
Qed.

(** X3. Adding a product that has no line in the cart and then removing
    its identifier gives the cart back. *)
Theorem addToCart_then_remove (p : product) (oq : option Z)
        (cart : list item) :
  Forall (λ i, Item.id i ≠ Product.id p) cart →
  removeFromCart (Product.id p) (addToCart p oq cart) = cart.
Proof.
  intros Hnone. rewrite addToCart_absent by done.
  unfold removeFromCart. rewrite filter_app, filter_other_id by done.
  rewrite filter_cons, decide_False by (cbn; tauto).
  apply app_nil_r.
Qed.

Lemma addToCart_then_remove_witness :
  removeFromCart (Product.id shirt) (addToCart shirt (Some 2) [mug_line])
  = [mug_line].
Proof.
  apply (addToCart_then_remove shirt (Some 2) [mug_line]).
  repeat constructor. discriminate.
Defined.

Lemma total_sum_lines (cart : list item) : total cart = sum_lines cart.
Proof. unfold total. rewrite total_from. lia. Qed.

Lemma sum_lines_app (c1 c2 : list item) :
  sum_lines (c1 ++ c2) = sum_lines c1 + sum_lines c2.
Proof. induction c1 as [|i c1 IH]; cbn; lia. Qed.

Lemma cartCount_from (cart : list item) (s : Z) :
  foldl (λ s i, s + Item.qty i) s cart
  = s + foldr (λ i s, Item.qty i + s) 0 cart.
Proof.
  revert s. induction cart as [|i cart IH]; intros s; cbn; [lia|].
  rewrite IH. lia.
Qed.

Lemma cartCount_cons (i : item) (cart : list item) :
  cartCount (i :: cart) = Item.qty i + cartCount cart.
Proof. unfold cartCount. cbn. rewrite !cartCount_from. lia. Qed.

Lemma cartCount_app (c1 c2 : list item) :
  cartCount (c1 ++ c2) = cartCount c1 + cartCount c2.
Proof.
  induction c1 as [|i c1 IH]; [unfold cartCount; cbn; lia|].
  cbn [app]. rewrite !cartCount_cons. lia.
Qed.

(** X4. Adding a product that has no line in the cart appends one line
    with the product's identifier, name, price and first image and the
    quantity of the call, and leaves the lines already there as they are;
    the subtotal rises by price times quantity and the badge count by the
    quantity. *)
Theorem addToCart_new_line (p : product) (oq : option Z)
        (cart : list item) :
  Forall (λ i, Item.id i ≠ Product.id p) cart →
  addToCart p oq cart
  = cart ++ [Item.mk (Product.id p) (Product.name p) (Product.price p)
                     (default 1 oq) (first_image p)]
  ∧ total (addToCart p oq cart) = total cart + Product.price p * default 1 oq
  ∧ cartCount (addToCart p oq cart) = cartCount cart + default 1 oq.
Proof.
  intros Hnone. rewrite addToCart_absent by done. split; [done|].
  rewrite !total_sum_lines, sum_lines_app, cartCount_app.
  unfold cartCount. cbn. lia.
Qed.

Lemma addToCart_new_line_witness :
  addToCart shirt None [mug_line]
  = [mug_line] ++ [Item.mk (Product.id shirt) (Product.name shirt)
                           (Product.price shirt) (default 1 None)
                           (first_image shirt)]
  ∧ total (addToCart shirt None [mug_line])
    = total [mug_line] + Product.price shirt * default 1 None
  ∧ cartCount (addToCart shirt None [mug_line])
    = cartCount [mug_line] + default 1 None.
Proof.
  apply (addToCart_new_line shirt None [mug_line]).
  repeat constructor. discriminate.
Defined.

(** Writing new quantities on the lines of one identifier: what it does to
    the subtotal and to the badge count. *)
Lemma sum_lines_requantify (pid : string) (f : item → Z) (cart : list item) :
  sum_lines (map (λ i, if decide (Item.id i = pid)
                       then Item.with_qty i (f i) else i) cart)
  = sum_lines cart
    + sum_lines (map (λ i, Item.with_qty i (f i - Item.qty i))
                     (lines_of pid cart)).
Proof.
  induction cart as [|i cart IH]; [done|].
  cbn [map sum_lines]. rewrite IH, lines_of_cons.
  destruct (decide (Item.id i = pid)); cbn; lia.
Qed.





Lemma cart_session_invariant_witness :
  NoDup (cart_ids (cart_session sample_session []))
  ∧ Forall (λ i, 1 ≤ Item.qty i) (cart_session sample_session []).
Proof.
  apply (cart_session_invariant sample_session []).
  - constructor.
  - constructor.
  - repeat (constructor; [first [exact I | apply Z.leb_le; reflexivity]|]).
    constructor.
Defined.

Lemma updateQty_again (id : string) (q1 q2 : Z) (cart : list item) :
  updateQty id q2 (updateQty id q1 cart) = updateQty id q2 cart.
Proof.
  unfold updateQty. rewrite map_map. apply map_ext. intros i.
  destruct (decide (Item.id i = id)) as [Hi|Hi]; cbn.
  - by rewrite decide_True.
  - by rewrite decide_False.
Qed.

(** X6. Of two quantity updates of one identifier the later one wins: the
    cart is the one the second update alone would give. *)
Theorem updateQty_last_wins (id : string) (q1 q2 : Z) (cart : list item) :
  updateQty id q2 (updateQty id q1 cart) = updateQty id q2 cart.
Proof. apply updateQty_again. Qed.

(** X7. Updating the quantity of the one line [i0] of an identifier moves
    the subtotal by the line's price times the change of its quantity,
    the new quantity being [max 1 q]. *)
Theorem updateQty_total (id : string) (q : Z) (cart : list item)
        (i0 : item) :
  lines_of id cart = [i0] →
  total (updateQty id q cart)
  = total cart + Item.price i0 * (Z.max 1 q - Item.qty i0).
Proof.
  intros Hone. unfold updateQty.
  rewrite !total_sum_lines, (sum_lines_requantify _ (λ _, Z.max 1 q)), Hone.
  cbn. lia.
Qed.

Lemma updateQty_total_witness :
  total (updateQty "p2" 0 [mug3_line; shirt_line])
  = total [mug3_line; shirt_line]
    + Item.price mug3_line * (Z.max 1 0 - Item.qty mug3_line).
Proof.
  apply (updateQty_total "p2" 0 [mug3_line; shirt_line] mug3_line).
  reflexivity.
Defined.

(** X8. Removing an identifier lowers the subtotal by the subtotal of the
    lines that carried it. *)
Theorem removeFromCart_total (id : string) (cart : list item) :
  total (removeFromCart id cart) = total cart - total (lines_of id cart).
Proof.
  rewrite !total_sum_lines. unfold removeFromCart.
  induction cart as [|i cart IH]; [done|].
  rewrite filter_cons, lines_of_cons.
  destruct (decide (Item.id i = id)) as [Hi|Hi].
  - rewrite decide_False by tauto. cbn [sum_lines]. lia.
  - rewrite decide_True by done. cbn [sum_lines]. lia.
Qed.

(** With one line per identifier, a quantity update that writes the
    quantity a line already has changes nothing. *)
Lemma same_id_same_line (cart : list item) (i j : item) :
  NoDup (cart_ids cart) → i ∈ cart → j ∈ cart → Item.id j = Item.id i →
  j = i.
Proof.
  unfold cart_ids. intros Hids Hi Hj Hid.
  apply list_elem_of_lookup in Hi as [n Hn].
  apply list_elem_of_lookup in Hj as [m Hm].
  assert (m = n) as ->.
  { eapply NoDup_lookup; [exact Hids| |].
    - by rewrite list_lookup_fmap, Hm.
    - by rewrite list_lookup_fmap, Hn, Hid. }
  congruence.
Qed.

Lemma updateQty_same_qty (cart : list item) (i : item) (q : Z) :
  NoDup (cart_ids cart) → i ∈ cart → Z.max 1 q = Item.qty i →
  updateQty (Item.id i) q cart = cart.
Proof.
  intros Hids Hi Hq. unfold updateQty.
  rewrite <- (map_id cart) at 2. apply map_ext_in. intros j Hj.
  apply list_elem_of_In in Hj.
  destruct (decide (Item.id j = Item.id i)) as [Hid|Hid]; [|done].
  rewrite (same_id_same_line cart i j) by done.
  rewrite Hq. by destruct i.
Qed.

(** X9. In a cart with one line per identifier, the minus button on a
    line of quantity 1 leaves the cart as it is: the quantity stays 1 and
    the line is not removed. *)
Theorem minus_at_one (cart : list item) (i : item) :
  NoDup (cart_ids cart) →
  i ∈ cart →
  Item.qty i = 1 →
  minus_click i cart = cart.
Proof.
  intros Hids Hi Hone. unfold minus_click.
  apply updateQty_same_qty; [done | done | lia].
Qed.

Lemma minus_at_one_witness : minus_click mug_line [shirt_line; mug_line]
                             = [shirt_line; mug_line].
Proof.
  apply (minus_at_one [shirt_line; mug_line] mug_line).
  - by apply (bool_decide_unpack _).
  - repeat constructor.
  - reflexivity.
Defined.

(** X10. In a cart with one line per identifier, the plus button on a line
    of quantity at least 1, followed by the minus button on the line as it
    then shows, gives the cart back. *)
Theorem plus_then_minus (cart : list item) (i : item) :
  NoDup (cart_ids cart) →
  i ∈ cart →
  1 ≤ Item.qty i →
  minus_click (Item.with_qty i (Item.qty i + 1)) (plus_click i cart) = cart.
Proof.
  intros Hids Hi Hqty. unfold minus_click, plus_click. cbn [Item.id Item.qty
    Item.with_qty].
  rewrite updateQty_again. apply updateQty_same_qty; [done | done | lia].
Qed.

Lemma plus_then_minus_witness :
  minus_click (Item.with_qty mug3_line (Item.qty mug3_line + 1))
              (plus_click mug3_line [mug3_line; shirt_line])
  = [mug3_line; shirt_line].
Proof.
  apply (plus_then_minus [mug3_line; shirt_line] mug3_line).
  - by apply (bool_decide_unpack _).
  - repeat constructor.
  - apply Z.leb_le. reflexivity.
Defined.

(** X27. Calls for other products in between do not matter: from a cart
    with no line for an identifier, any sequence of [addToCart] calls with
    at least one call for it leaves exactly one line for it, whose quantity
    is the sum of the quantities of the calls for that identifier. *)
Theorem addToCart_interleaved (pid : string) (calls : list call)
        (cart : list item) :
  Forall (λ i, Item.id i ≠ pid) cart →
  Exists (λ k : call, Product.id k.1 = pid) calls →
  ∃ i, lines_of pid (run_adds calls cart) = [i]
       ∧ Item.qty i = added_qty pid calls.
Proof.
  intros Hcart Hsome. apply run_adds_no_line; [|done].
  by apply lines_of_nil_iff.
Qed.

Lemma addToCart_interleaved_witness :
  ∃ i, lines_of "p1"
         (run_adds [(mug, None); (shirt, Some 2); (mug, Some 4); (shirt, None)]
                   [])
       = [i]
       ∧ Item.qty i
         = added_qty "p1"
             [(mug, None); (shirt, Some 2); (mug, Some 4); (shirt, None)].
Proof.
  apply (addToCart_interleaved "p1"
           [(mug, None); (shirt, Some 2); (mug, Some 4); (shirt, None)] []).
  - constructor.
  - right. left. reflexivity.
Defined.

(** ** Pricing engine: bounds and the coupon input *)

Lemma sum_lines_nonneg (cart : list item) :
  Forall (λ i, 0 ≤ Item.price i ∧ 0 ≤ Item.qty i) cart →
  0 ≤ sum_lines cart.
Proof. induction 1 as [|i cart [Hp Hq] _ IH]; cbn; [done | nia]. Qed.

Lemma tenth_bounds (t : Z) : 0 ≤ t → 0 ≤ (t + 5) / 10 ≤ t.
Proof.
  intros Ht. split.
  - apply Z.div_pos; lia.
  - destruct (decide (t = 0)) as [->|Hne]; [done|].
    apply Z.div_le_upper_bound; lia.
Qed.

Lemma discount_cases (t s : Z) (coupon : string) :
  discount (CheckoutFooter t s coupon) = (t + 5) / 10
  ∨ discount (CheckoutFooter t s coupon) = 0.
Proof.
  unfold CheckoutFooter. cbn [discount].
  destruct (decide _); [left; apply Math_round_tenth | by right].
Qed.

Lemma grand_eq (t s : Z) (coupon : string) :
  grand (CheckoutFooter t s coupon)
  = Z.max 0 (t + s - discount (CheckoutFooter t s coupon)).
Proof. reflexivity. Qed.

(** X11. For a cart whose prices and quantities are not negative, whatever
    the coupon: the discount lies between 0 and the subtotal, the grand
    total is exactly subtotal plus shipping minus discount (the floor at
    zero never applies) and is at least the shipping fee. *)
Theorem checkout_bounds (cart : list item) (coupon : string) :
  Forall (λ i, 0 ≤ Item.price i ∧ 0 ≤ Item.qty i) cart →
  0 ≤ discount (checkout cart coupon) ≤ total cart
  ∧ grand (checkout cart coupon)
    = total cart + shippingFee (total cart) - discount (checkout cart coupon)
  ∧ shippingFee (total cart) ≤ grand (checkout cart coupon).
Proof.
  intros Hcart. unfold checkout.
  pose proof (sum_lines_nonneg cart Hcart) as Hpos.
  rewrite <- total_sum_lines in Hpos.
  pose proof (tenth_bounds (total cart) Hpos) as Htenth.
  assert (Hfee : 0 ≤ shippingFee (total cart)).
  { unfold shippingFee. destruct (_ <? _); lia. }
  rewrite grand_eq.
  destruct (discount_cases (total cart) (shippingFee (total cart)) coupon)
    as [-> | ->]; lia.
Qed.

Lemma checkout_bounds_witness :
  0 ≤ discount (checkout [shirt_line; mug3_line] "vietky10")
    ≤ total [shirt_line; mug3_line]
  ∧ grand (checkout [shirt_line; mug3_line] "vietky10")
    = total [shirt_line; mug3_line]
      + shippingFee (total [shirt_line; mug3_line])
      - discount (checkout [shirt_line; mug3_line] "vietky10")
  ∧ shippingFee (total [shirt_line; mug3_line])
    ≤ grand (checkout [shirt_line; mug3_line] "vietky10").
Proof.
  apply (checkout_bounds [shirt_line; mug3_line] "vietky10").
  repeat constructor; discriminate.
Defined.

(** X12. Just above the free-shipping threshold the customer pays less
    than at the threshold: for every subtotal strictly between 500000 and
    530000, and whatever the coupon, the grand total is below the grand
    total of a subtotal of exactly 500000. *)
Theorem free_shipping_cliff (t : Z) (coupon : string) :
  500000 < t →
  t < 530000 →
  grand (CheckoutFooter t (shippingFee t) coupon)
  < grand (CheckoutFooter 500000 (shippingFee 500000) coupon).
Proof.
  intros Hlow Hhigh. rewrite !grand_eq.
  assert (shippingFee t = 0) as ->.
  { unfold shippingFee. by rewrite (proj2 (Z.ltb_lt _ _) Hlow). }
  change (shippingFee 500000) with 30000.
  unfold CheckoutFooter. cbn [discount].
  destruct (decide _); [|lia].
  rewrite !Math_round_tenth. change ((500000 + 5) / 10) with 50000.
  assert (0 ≤ (t + 5) / 10) by (apply Z.div_pos; lia).
  assert (50000 ≤ (t + 5) / 10) by (apply Z.div_le_lower_bound; lia).
  assert ((t + 5) / 10 ≤ t) by (apply Z.div_le_upper_bound; lia).
  lia.
Qed.

Lemma free_shipping_cliff_witness :
  grand (CheckoutFooter 500001 (shippingFee 500001) "none")
  < grand (CheckoutFooter 500000 (shippingFee 500000) "none").
Proof. apply (free_shipping_cliff 500001 "none"); reflexivity. Defined.














(** ** Query engine: what the result holds and in which order *)

Lemma filtered_priceAsc (products : list product) (query category : string) :
  filtered products query category "priceAsc"
  = js_sort by_price_asc (matches products query category).
Proof. reflexivity. Qed.

Lemma filtered_priceDesc (products : list product) (query category : string) :
  filtered products query category "priceDesc"
  = js_sort by_price_desc (matches products query category).
Proof. reflexivity. Qed.

Lemma filtered_popular_eq (products : list product) (query category : string) :
  filtered products query category "popular"
  = js_sort by_rating_desc (matches products query category).
Proof. reflexivity. Qed.

(** Whatever the sort mode, the result is one of four lists. *)
Lemma filtered_cases (products : list product) (query category sort : string) :
  let l := matches products query category in
  (sort = "priceAsc" ∧ filtered products query category sort
                       = js_sort by_price_asc l)
  ∨ (sort = "priceDesc" ∧ filtered products query category sort
                          = js_sort by_price_desc l)
  ∨ (sort = "popular" ∧ filtered products query category sort
                        = js_sort by_rating_desc l)
  ∨ filtered products query category sort = l.
Proof.
  cbn zeta.
  destruct (decide (sort = "priceAsc")) as [->|H1]; [by left|].
  destruct (decide (sort = "priceDesc")) as [->|H2]; [by right; left|].
  destruct (decide (sort = "popular")) as [->|H3]; [by right; right; left|].
  right; right; right. unfold filtered.
  by rewrite !decide_False.
Qed.

Lemma filtered_perm (products : list product) (query category sort : string) :
  filtered products query category sort ≡ₚ matches products query category.
Proof.
  destruct (filtered_cases products query category sort)
    as [[_ ->]|[[_ ->]|[[_ ->]| ->]]]; try apply js_sort_perm. done.
Qed.


Lemma elem_of_matches (products : list product) (query category : string)
      (p : product) :
  p ∈ matches products query category ↔
  p ∈ products
  ∧ (query = EmptyString
     ∨ includes (toLowerCase (Product.name p)) (toLowerCase query) = true)
  ∧ (category = "all" ∨ Product.category p = category).
Proof.
  unfold matches.
  destruct (decide (query = EmptyString)) as [Hq|Hq],
           (decide (category = "all")) as [Hc|Hc];
    rewrite ?list_elem_of_filter; tauto.
Qed.


(** X15. Under [priceAsc] the result is in ascending order of price and
    under [priceDesc] in descending order of price. *)
Theorem filtered_price_sorted (products : list product)
        (query category : string) :
  StronglySorted (λ a b, Product.price a ≤ Product.price b)
                 (filtered products query category "priceAsc")
  ∧ StronglySorted (λ a b, Product.price b ≤ Product.price a)
                   (filtered products query category "priceDesc").
Proof.
  rewrite filtered_priceAsc, filtered_priceDesc.
  split; [apply js_sort_price_asc | apply js_sort_price_desc].
Qed.

Lemma Qle_bool_inject_zero (z : Z) : z = 0 → Qle_bool (inject_Z z) 0 = true.
Proof. by intros ->. Qed.

(** X16. The sort is stable: products of one price keep their catalogue
    order under [priceAsc] and [priceDesc], and products of one rating
    keep it under [popular]. *)
Theorem filtered_stable (products : list product) (query category : string)
        (price : Z) (rating : Q) :
  let l := matches products query category in
  filter (λ p, Product.price p = price)
         (filtered products query category "priceAsc")
  = filter (λ p, Product.price p = price) l
  ∧ filter (λ p, Product.price p = price)
           (filtered products query category "priceDesc")
    = filter (λ p, Product.price p = price) l
  ∧ filter (λ p, Product.rating p == rating)%Q
           (filtered products query category "popular")
    = filter (λ p, Product.rating p == rating)%Q l.
Proof.
  cbn zeta. rewrite filtered_priceAsc, filtered_priceDesc, filtered_popular_eq.
  split; [|split].
  - apply js_sort_stable. intros a b Ha Hb.
    apply Qle_bool_inject_zero. lia.
  - apply js_sort_stable. intros a b Ha Hb.
    apply Qle_bool_inject_zero. lia.
  - apply js_sort_rating_stable.
Qed.

Lemma StronglySorted_reverse {A} (R : A → A → Prop) (l : list A) :
  StronglySorted R l → StronglySorted (flip R) (reverse l).
Proof.
  induction 1 as [|x l Hl IH Hx]; [constructor|].
  rewrite reverse_cons. apply StronglySorted_app_2; [|done|by repeat constructor].
  intros a b Ha ->%list_elem_of_singleton.
  rewrite Forall_forall in Hx. apply Hx. by apply elem_of_reverse.
Qed.

Lemma same_price_same_product (l : list product) (a b : product) :
  NoDup (Product.price <$> l) → a ∈ l → b ∈ l →
  Product.price a = Product.price b → a = b.
Proof.
  intros Hprices Ha Hb Hprice.
  apply list_elem_of_lookup in Ha as [n Hn].
  apply list_elem_of_lookup in Hb as [m Hm].
  assert (n = m) as ->.
  { eapply NoDup_lookup; [exact Hprices| |].
    - by rewrite list_lookup_fmap, Hn.
    - by rewrite list_lookup_fmap, Hm, Hprice. }
  congruence.
Qed.

(** X17. When the products that pass the filters have pairwise different
    prices, the [priceDesc] result is the [priceAsc] result reversed. *)
Theorem filtered_price_reverse (products : list product)
        (query category : string) :
  NoDup (Product.price <$> matches products query category) →
  filtered products query category "priceDesc"
  = reverse (filtered products query category "priceAsc").
Proof.
  intros Hprices. rewrite filtered_priceAsc, filtered_priceDesc.
  set (l := matches products query category) in *.
  apply (StronglySorted_unique_strong
           (λ a b, Product.price b ≤ Product.price a)).
  - intros a b Ha Hb Hab Hba.
    rewrite js_sort_perm in Ha.
    rewrite reverse_Permutation, js_sort_perm in Hb.
    apply (same_price_same_product l); [done..|lia].
  - apply js_sort_price_desc.
  - apply (StronglySorted_reverse
             (λ a b, Product.price a ≤ Product.price b)).
    apply js_sort_price_asc.
  - by rewrite reverse_Permutation, !js_sort_perm.
Qed.

Lemma filtered_price_reverse_witness :
  filtered [shirt; notebook; mug] EmptyString "all" "priceDesc"
  = reverse (filtered [shirt; notebook; mug] EmptyString "all" "priceAsc").
Proof.
  apply (filtered_price_reverse [shirt; notebook; mug] EmptyString "all").
  by apply (bool_decide_unpack _).
Defined.

Section sort_sorted.
Context {A : Type} (cmp : A → A → Q) (R : A → A → Prop).
Hypothesis R_cmp : ∀ a b, R a b → Qle_bool (cmp a b) 0 = true.

(** Sorting a list that is in order gives it back. *)
Lemma js_sort_in_order (l : list A) :
  StronglySorted R l → js_sort cmp l = l.
Proof using R_cmp.
  induction 1 as [|x l Hl IH Hx]; [done|].
  cbn [js_sort foldr]. fold (js_sort cmp l). rewrite IH.
  destruct l as [|y l]; [done|]. cbn [sort_insert].
  apply Forall_cons in Hx as [Hxy _]. by rewrite R_cmp.
Qed.
End sort_sorted.

Lemma js_sort_twice_rating (l : list product) :
  js_sort by_rating_desc (js_sort by_rating_desc l) = js_sort by_rating_desc l.
Proof.
  apply (js_sort_in_order _ (λ a b, (Product.rating b <= Product.rating a)%Q)).
  - intros a b Hab. apply Qle_bool_iff. unfold by_rating_desc.
    apply (Qplus_le_l _ _ (Product.rating a)). 
    unfold Qminus. rewrite <- Qplus_assoc, (Qplus_comm (- _)), Qplus_opp_r.
    by rewrite Qplus_0_r, Qplus_0_l.
  - apply js_sort_rating_desc.
Qed.

Lemma js_sort_twice_asc (l : list product) :
  js_sort by_price_asc (js_sort by_price_asc l) = js_sort by_price_asc l.
Proof.
  apply (js_sort_in_order _ (λ a b, Product.price a ≤ Product.price b)).
  - intros a b Hab. apply Qle_bool_iff. unfold by_price_asc.
    change 0%Q with (inject_Z 0). rewrite <- Zle_Qle. lia.
  - apply js_sort_price_asc.
Qed.

Lemma js_sort_twice_desc (l : list product) :
  js_sort by_price_desc (js_sort by_price_desc l) = js_sort by_price_desc l.
Proof.
  apply (js_sort_in_order _ (λ a b, Product.price b ≤ Product.price a)).
  - intros a b Hab. apply Qle_bool_iff. unfold by_price_desc.
    change 0%Q with (inject_Z 0). rewrite <- Zle_Qle. lia.
  - apply js_sort_price_desc.
Qed.

Lemma filter_all {A} (P : A → Prop) `{!∀ x, Decision (P x)} (l : list A) :
  (∀ x, x ∈ l → P x) → filter P l = l.
Proof.
  induction l as [|x l IH]; intros Hall; [done|].
  rewrite filter_cons, decide_True by (apply Hall; by left).
  rewrite IH; [done|]. intros y Hy. apply Hall. by right.
Qed.

(** A list whose every product passes the filters is left as it is. *)
Lemma matches_all_pass (l : list product) (query category : string) :
  (∀ p, p ∈ l →
        (query = EmptyString
         ∨ includes (toLowerCase (Product.name p)) (toLowerCase query) = true)
        ∧ (category = "all" ∨ Product.category p = category)) →
  matches l query category = l.
Proof.
  intros Hpass. unfold matches.
  destruct (decide (query = EmptyString)) as [Hq|Hq],
           (decide (category = "all")) as [Hc|Hc]; [done|..].
  - apply filter_all. intros p Hp. destruct (Hpass p Hp) as [_ [?|?]]; done.
  - apply filter_all. intros p Hp. destruct (Hpass p Hp) as [[?|?] _]; done.
  - rewrite (filter_all (λ p, includes _ _ = true)).
    + apply filter_all. intros p Hp. destruct (Hpass p Hp) as [_ [?|?]]; done.
    + intros p Hp. destruct (Hpass p Hp) as [[?|?] _]; done.
Qed.

(** X18. The query is idempotent: run again on its own result with the
    same search text, category and sort mode, it returns that result. *)
Theorem filtered_idempotent (products : list product)
        (query category sort : string) :
  filtered (filtered products query category sort) query category sort
  = filtered products query category sort.
Proof.
  set (result := filtered products query category sort).
  assert (Hpass : matches result query category = result).
  { apply matches_all_pass. intros p Hp. subst result.
    rewrite filtered_perm in Hp. apply elem_of_matches in Hp. tauto. }
  destruct (filtered_cases result query category sort)
    as [[Hs ->]|[[Hs ->]|[[Hs ->]| ->]]]; rewrite Hpass; [..|done];
    subst result sort.
  - rewrite filtered_priceAsc. apply js_sort_twice_asc.
  - rewrite filtered_priceDesc. apply js_sort_twice_desc.
  - rewrite filtered_popular_eq. apply js_sort_twice_rating.
Qed.






(** ** Catalog store: new products, deletion, unique identifiers *)

Lemma upsertProduct_absent (p : product) (fresh : string)
      (list : list product) :
  Forall (λ x, Product.id x ≠ Product.id p) list →
  upsertProduct p fresh list = Product.with_id p fresh :: list.
Proof.
  intros Hnone. unfold upsertProduct.
  by rewrite (proj2 (list_find_None _ list) Hnone).
Qed.

Lemma upsertProduct_present (p : product) (fresh : string)
      (list : list product) :
  Exists (λ x, Product.id x = Product.id p) list →
  ∃ idx old,
    list_find (λ x, Product.id x = Product.id p) list = Some (idx, old)
    ∧ upsertProduct p fresh list = <[idx := p]> list.
Proof.
  intros Hsome. unfold upsertProduct.
  destruct (list_find _ list) as [[idx old]|] eqn:Hfind; [by eauto|].
  apply list_find_None in Hfind.
  apply Exists_exists in Hsome as (x & Hx & Hid).
  rewrite Forall_forall in Hfind. by apply Hfind in Hx.
Qed.

(** X19. A product whose identifier is not in the catalogue is stored in
    front under the freshly drawn identifier, not under the identifier it
    came with; saving the same product again therefore adds a second
    entry instead of updating the first. *)
Theorem upsertProduct_new_twice (p : product) (fresh1 fresh2 : string)
        (list : list product) :
  Forall (λ x, Product.id x ≠ Product.id p) list →
  fresh1 ≠ Product.id p →
  upsertProduct p fresh1 list = Product.with_id p fresh1 :: list
  ∧ upsertProduct p fresh2 (upsertProduct p fresh1 list)
    = Product.with_id p fresh2 :: Product.with_id p fresh1 :: list.
Proof.
  intros Hnone Hfresh. rewrite (upsertProduct_absent p fresh1) by done.
  split; [done|]. apply upsertProduct_absent. by constructor.
Qed.

Lemma upsertProduct_new_twice_witness :
  upsertProduct draft "k3f9q2a" [shirt; mug]
  = Product.with_id draft "k3f9q2a" :: [shirt; mug]
  ∧ upsertProduct draft "m7x1c5d" (upsertProduct draft "k3f9q2a" [shirt; mug])
    = Product.with_id draft "m7x1c5d"
      :: Product.with_id draft "k3f9q2a" :: [shirt; mug].
Proof.
  apply (upsertProduct_new_twice draft "k3f9q2a" "m7x1c5d" [shirt; mug]).
  - repeat constructor; discriminate.
  - discriminate.
Defined.

Lemma catalog_ids_insert (list : list product) (idx : nat)
      (old p : product) :
  list !! idx = Some old → Product.id old = Product.id p →
  catalog_ids (<[idx := p]> list) = catalog_ids list.
Proof.
  intros Hidx Hid. unfold catalog_ids. rewrite list_fmap_insert.
  apply list_insert_id. rewrite list_lookup_fmap, Hidx. cbn. by rewrite Hid.
Qed.

(** X20. Unique identifiers are kept: when no two entries of the catalogue
    share an identifier and the drawn identifier is not in it, the
    catalogue after [upsertProduct] has no two entries with one identifier
    either, and neither has the catalogue after [deleteProduct]. *)
Theorem catalog_ids_unique (p : product) (fresh id : string)
        (list : list product) :
  NoDup (catalog_ids list) →
  fresh ∉ catalog_ids list →
  NoDup (catalog_ids (upsertProduct p fresh list))
  ∧ NoDup (catalog_ids (deleteProduct id list)).
Proof.
  intros Hids Hfresh. split.
  - destruct (decide (Exists (λ x, Product.id x = Product.id p) list))
      as [Hsome|Hnone].
    + destruct (upsertProduct_present p fresh list Hsome)
        as (idx & old & Hfind & ->).
      apply list_find_Some in Hfind as (Hidx & Hid & _).
      by rewrite (catalog_ids_insert list idx old p).
    + apply not_Exists_Forall in Hnone; [|intros x; apply _].
      rewrite upsertProduct_absent by done.
      unfold catalog_ids. rewrite fmap_cons. by constructor.
  - clear Hfresh. unfold catalog_ids, deleteProduct in *.
    induction list as [|x list IH]; [constructor|].
    rewrite fmap_cons in Hids. apply NoDup_cons in Hids as [Hx Hids].
    rewrite filter_cons. destruct (decide _); [|by apply IH].
    rewrite fmap_cons. constructor; [|by apply IH].
    intros Hin. apply Hx. apply list_elem_of_fmap in Hin as (y & Hy & Hin).
    apply list_elem_of_filter in Hin as [_ Hin].
    apply list_elem_of_fmap. by exists y.
Qed.

Lemma catalog_ids_unique_witness :
  NoDup (catalog_ids (upsertProduct mug_edit "k3f9q2a" [shirt; mug]))
  ∧ NoDup (catalog_ids (deleteProduct "p1" [shirt; mug])).
Proof.
  apply (catalog_ids_unique mug_edit "k3f9q2a" "p1" [shirt; mug]).
  - by apply (bool_decide_unpack _).
  - by apply (bool_decide_unpack _).
Defined.

Lemma filter_other_product (id : string) (list : list product) :
  Forall (λ x, Product.id x ≠ id) list →
  filter (λ x, Product.id x ≠ id) list = list.
Proof.
  induction 1 as [|x l Hx _ IH]; [done|].
  rewrite filter_cons, decide_True by done. by rewrite IH.
Qed.

(** X21. In a catalogue without two entries of one identifier,
    [deleteProduct] with the identifier of the entry at position [n]
    removes that entry and nothing else; after it no entry carries the
    identifier. *)
Theorem deleteProduct_exactly (list : list product) (n : nat) (p : product) :
  NoDup (catalog_ids list) →
  list !! n = Some p →
  deleteProduct (Product.id p) list = delete n list
  ∧ Forall (λ x, Product.id x ≠ Product.id p)
           (deleteProduct (Product.id p) list).
Proof.
  intros Hids Hn. split.
  - unfold deleteProduct, catalog_ids in *. revert n Hn.
    induction list as [|x list IH]; intros n Hn; [done|].
    rewrite fmap_cons in Hids. apply NoDup_cons in Hids as [Hx Hids].
    rewrite filter_cons. destruct n as [|n]; cbn in Hn.
    + injection Hn as ->. rewrite decide_False by tauto. cbn [delete list_delete].
      apply filter_other_product. apply Forall_forall. intros y Hy Hid.
      apply Hx. apply list_elem_of_fmap. by exists y.
    + rewrite decide_True.
      * cbn [delete list_delete]. f_equal. by apply IH.
      * intros Hid. apply Hx. apply list_elem_of_fmap. exists p.
        split; [done|]. by eapply list_elem_of_lookup_2.
  - unfold deleteProduct. apply Forall_forall. intros y Hy.
    by apply list_elem_of_filter in Hy as [? _].
Qed.

Lemma deleteProduct_exactly_witness :
  deleteProduct (Product.id notebook) [shirt; notebook; mug]
  = delete 1%nat [shirt; notebook; mug]
  ∧ Forall (λ x, Product.id x ≠ Product.id notebook)
           (deleteProduct (Product.id notebook) [shirt; notebook; mug]).
Proof.
  apply (deleteProduct_exactly [shirt; notebook; mug] 1 notebook).
  - by apply (bool_decide_unpack _).
  - reflexivity.
Defined.

(** X22. Storing a product whose identifier is not in the catalogue and
    then deleting the identifier drawn for it gives the catalogue back,
    when the drawn identifier was not in the catalogue. *)
Theorem upsert_then_delete (p : product) (fresh : string)
        (list : list product) :
  Forall (λ x, Product.id x ≠ Product.id p) list →
  Forall (λ x, Product.id x ≠ fresh) list →
  deleteProduct fresh (upsertProduct p fresh list) = list.
Proof.
  intros Hnone Hfresh. rewrite upsertProduct_absent by done.
  unfold deleteProduct. rewrite filter_cons, decide_False by (cbn; tauto).
  by apply filter_other_product.
Qed.

Lemma upsert_then_delete_witness :
  deleteProduct "k3f9q2a" (upsertProduct draft "k3f9q2a" [shirt; mug])
  = [shirt; mug].
Proof.
  apply (upsert_then_delete draft "k3f9q2a" [shirt; mug]);
    repeat constructor; discriminate.
Defined.

(** X23. Saving a product whose identifier is in the catalogue twice is
    the same as saving it once. *)
Theorem upsert_existing_idempotent (p : product) (fresh1 fresh2 : string)
        (list : list product) :
  Exists (λ x, Product.id x = Product.id p) list →
  upsertProduct p fresh2 (upsertProduct p fresh1 list)
  = upsertProduct p fresh1 list.
Proof.
  intros Hsome.
  destruct (upsertProduct_present p fresh1 list Hsome)
    as (idx & old & Hfind & ->).
  apply list_find_Some in Hfind as (Hidx & Hid & Hbefore).
  assert (Hlt : (idx < length list)%nat) by by eapply lookup_lt_Some.
  assert (Hfind' :
    list_find (λ x, Product.id x = Product.id p) (<[idx := p]> list)
    = Some (idx, p)).
  { apply list_find_Some. split; [by apply list_lookup_insert_eq|].
    split; [done|]. intros j y Hj Hji.
    rewrite list_lookup_insert_ne in Hj by lia. by eapply Hbefore. }
  unfold upsertProduct at 1. rewrite Hfind'.
  by rewrite list_insert_insert_eq.
Qed.

Lemma upsert_existing_idempotent_witness :
  upsertProduct mug_edit "m7x1c5d" (upsertProduct mug_edit "k3f9q2a" [shirt; mug])
  = upsertProduct mug_edit "k3f9q2a" [shirt; mug].
Proof.
  apply (upsert_existing_idempotent mug_edit "k3f9q2a" "m7x1c5d" [shirt; mug]).
  right. left. reflexivity.
Defined.

(** ** Persistence adapter: keys, and the cart across a reload *)

(** X24. [save] writes one key: what [load] returns for any other key is
    what it returned before; and a later [save] under a key replaces an
    earlier one. *)
Theorem save_other_key (k k' : string) (v v0 fallback : json)
        (st : storage) :
  k ≠ k' →
  load k' fallback (save k v st) = load k' fallback st
  ∧ save k v (save k v0 st) = save k v st.
Proof.
  intros Hne. unfold load, getItem_text, save. split.
  - by rewrite lookup_insert_ne.
  - apply insert_insert_eq.
Qed.

Lemma save_other_key_witness :
  load "vk_products" JNull (save "vk_cart" stored_cart ∅)
  = load "vk_products" JNull ∅
  ∧ save "vk_cart" stored_cart (save "vk_cart" (JArr []) ∅)
    = save "vk_cart" stored_cart ∅.
Proof.
  apply (save_other_key "vk_cart" "vk_products" stored_cart (JArr []) JNull ∅).
  discriminate.
Defined.

Lemma item_json_wf (i : item) : json_wf (item_json i) = true.
Proof. destruct i as [id name price qty [image|]]; reflexivity. Qed.

Lemma cart_json_wf (cart : list item) : json_wf (cart_json cart) = true.
Proof.
  unfold cart_json. cbn [json_wf]. induction cart as [|i cart IH]; [done|].
  rewrite fmap_cons. cbn [forallb]. by rewrite item_json_wf, IH.
Qed.

Lemma item_json_inj (i j : item) : item_json i = item_json j → i = j.
Proof.
  destruct i as [id1 n1 p1 q1 im1], j as [id2 n2 p2 q2 im2].
  unfold item_json. cbn [Item.id Item.name Item.price Item.qty Item.image].
  intros H. injection H as -> -> -> -> H.
  destruct im1, im2; cbn in H; try discriminate; [|done].
  by injection H as ->.
Qed.

Lemma cart_json_inj (c1 c2 : list item) : cart_json c1 = cart_json c2 → c1 = c2.
Proof.
  unfold cart_json. intros H. injection H as H. revert c2 H.
  induction c1 as [|i c1 IH]; intros [|j c2] H; try done.
  rewrite !fmap_cons in H.
  assert (Hi : item_json i = item_json j) by congruence.
  assert (Ht : item_json <$> c1 = item_json <$> c2) by congruence.
  f_equal; [by apply item_json_inj | by apply IH].
Qed.

(** X25. The cart survives a reload: whatever the cart, empty or not,
    the value the effect of [App] saves under [vk_cart] is the value the
    initial state loads, never the fallback; and that value determines
    the cart, line by line. *)
Theorem cart_reload (cart : list item) (st : storage) :
  initial_cart (persist_cart cart st) = cart_json cart
  ∧ ∀ cart', cart_json cart' = cart_json cart ↔ cart' = cart.
Proof.
  split.
  - unfold initial_cart, persist_cart, load.
    rewrite getItem_text_save, JSON_parse_stringify by apply cart_json_wf.
    reflexivity.
  - intros cart'. split; [apply cart_json_inj | by intros ->].
Qed.
